(** * Loopy belief propagation image denoising (apps/image_denoise/loopybp_denoise.cpp)

    A shallow embedding of [construct_graph], [bp_update] and the smoothing
    selection of [main], with the properties of the lattice graph and of
    one update step.

    The file [loopybp_denoise.cpp] uses three headers whose code is not
    embedded here: the factor classes ([graphlab::unary_factor],
    [graphlab::binary_factor]), the graph container ([graphlab::graph])
    and [image.hpp].  Floating point arithmetic and the factor methods are
    taken as the operations of a class [FactorOps]; every theorem holds for
    all its instances.  The graph container and the image are modelled from
    their description and from the way the source uses them. *)

From Stdlib Require Import ZArith QArith Qabs Lia.
From stdpp Require Import base decidable option list list_numbers sorting strings.

Local Open Scope Z_scope.

(** ** Machine integers *)

(** [size_t] is a 64-bit unsigned integer; [wrap] is its wrap-around. *)
Definition size_mod : Z := 2 ^ 64.
Definition wrap (z : Z) : Z := z mod size_mod.

(** [uint32_t], the type of [pixel_id] (line 417). *)
Definition uint32_mod : Z := 2 ^ 32.

(** [for (size_t i = 0; i < n; ++i) body]. *)
Definition for_size {S : Type} (n : Z) (body : Z → S → S) (s : S) : S :=
  foldl (λ acc i, body i acc) s (seqZ 0 n).

(** The same loop with a body that may abort (a failed [assert]). *)
Definition for_size_opt {S : Type} (n : Z) (body : Z → S → option S) (s : S)
  : option S :=
  foldl (λ acc i, acc ≫= body i) (Some s) (seqZ 0 n).

(** [foreach (x, l) body]. *)
Definition foreach {A S : Type} (l : list A) (body : A → S → S) (s : S) : S :=
  foldl (λ acc x, body x acc) s l.

(** ** Factors *)

(** Modelled from the spec: [graphlab::unary_factor] is declared in a header
    that is absent.  "UnaryFactor: ordered array of K log-weights indexed by
    domain state; identified with the variable it belongs to." *)
Record unary_factor (D : Type) : Type := mk_unary {
  var : Z;
  logP : list D
}.
Arguments mk_unary {D} _ _.
Arguments var {D} _.
Arguments logP {D} _.

(** Modelled from the spec: the operations the source calls on doubles and on
    factors.  [D] stands for [double], [BF] for [graphlab::binary_factor].
    The factor methods mutate [this] in place; here they take [this] as
    their first argument and return its new value.  The methods are total
    here: a check that a method of the library makes on the arities of its
    arguments is not modelled, so [None] stands for a failed assertion of
    the source (lines 309, 325, 365 and 429) only. *)
Class FactorOps (D BF : Type) : Type := {
  (* double arithmetic of lines 422-423 and the comparison of line 392 *)
  d_of_size : Z → D;
  d_two : D;
  d_neg : D → D;
  d_sub : D → D → D;
  d_mul : D → D → D;
  d_div : D → D → D;
  d_gt : D → D → bool;
  (* unary_factor *)
  resize : unary_factor D → Z → unary_factor D;
  uniform : unary_factor D → unary_factor D;
  normalize : unary_factor D → unary_factor D;
  times : unary_factor D → unary_factor D → unary_factor D;
  divide : unary_factor D → unary_factor D → unary_factor D;
  convolve : unary_factor D → BF → unary_factor D → unary_factor D;
  damp : unary_factor D → unary_factor D → D → unary_factor D;
  residual : unary_factor D → unary_factor D → D;
  (* binary_factor *)
  binary_factor : Z → Z → Z → Z → BF;
  set_as_agreement : BF → D → BF;
  set_as_laplace : BF → D → BF
}.

Section Factor.
Context {D : Type}.

(** A default-constructed factor: no variable, arity 0. *)
Definition empty_factor : unary_factor D := mk_unary 0 [].

Definition arity (f : unary_factor D) : Z := Z.of_nat (length (logP f)).

(** [f.var() = v]. *)
Definition set_var (f : unary_factor D) (v : Z) : unary_factor D :=
  mk_unary v (logP f).

(** [f.logP(i) = x].  The source does not check the index; a write out of
    range is undefined there and is dropped here. *)
Definition set_logP (f : unary_factor D) (i : Z) (x : D) : unary_factor D :=
  mk_unary (var f) (<[Z.to_nat i := x]> (logP f)).

#[export] Instance unary_factor_inhabited : Inhabited (unary_factor D) :=
  populate empty_factor.
End Factor.

(** ** Vertex and edge data (lines 45-58) *)

Record edge_data (D : Type) : Type := mk_edge_data {
  message : unary_factor D;
  old_message : unary_factor D
}.
Arguments mk_edge_data {D} _ _.
Arguments message {D} _.
Arguments old_message {D} _.

Record vertex_data (D : Type) : Type := mk_vertex_data {
  potential : unary_factor D;
  belief : unary_factor D
}.
Arguments mk_vertex_data {D} _ _.
Arguments potential {D} _.
Arguments belief {D} _.

#[export] Instance edge_data_inhabited {D} : Inhabited (edge_data D) :=
  populate (mk_edge_data empty_factor empty_factor).
#[export] Instance vertex_data_inhabited {D} : Inhabited (vertex_data D) :=
  populate (mk_vertex_data empty_factor empty_factor).

(** ** The image *)

(** Modelled from the spec: [image.hpp] is absent.  An image has [rows],
    [cols] and a pixel value per cell ("a 2D numeric intensity field"). *)
Record image (D : Type) : Type := mk_image {
  rows : Z;
  cols : Z;
  pixel : Z → Z → D
}.
Arguments mk_image {D} _ _ _.
Arguments rows {D} _.
Arguments cols {D} _.
Arguments pixel {D} _ _ _.

(** Modelled from the spec: [image::vertid] is absent.  Vertices are added
    row by row and line 429 asserts that the identifier returned by
    [add_vertex] is [img.vertid(i, j)]: the row-major index, computed on
    [size_t]. *)
Definition vertid {D} (img : image D) (i j : Z) : Z :=
  wrap (i * cols img + j).

(** ** The graph *)

(** Modelled from the spec: [graphlab::graph] is absent.  "vertex/edge-indexed
    storage with get/set for factor payloads; neighbor enumeration (in-edges,
    out-edges)".  Vertices and edges are numbered in the order they are
    added; [ends] holds (source, target) of each edge. *)
Record graph (D : Type) : Type := mk_graph {
  vertices : list (vertex_data D);
  ends : list (Z * Z);
  edges : list (edge_data D);
  finalized : bool
}.
Arguments mk_graph {D} _ _ _ _.
Arguments vertices {D} _.
Arguments ends {D} _.
Arguments edges {D} _.
Arguments finalized {D} _.

Section Graph.
Context {D : Type}.
Implicit Types (g : graph D) (v : Z) (e : nat).

Definition empty_graph : graph D := mk_graph [] [] [] false.

Definition num_vertices g : Z := Z.of_nat (length (vertices g)).

(** [graph.add_vertex(vdata)]: stores a copy, returns the new identifier. *)
Definition add_vertex g (vdata : vertex_data D) : graph D * Z :=
  (mk_graph (vertices g ++ [vdata]) (ends g) (edges g) (finalized g),
   num_vertices g).

(** [graph.add_edge(source, target, edata)]: stores a copy of [edata]. *)
Definition add_edge g (src tgt : Z) (edata : edge_data D) : graph D :=
  mk_graph (vertices g) (ends g ++ [(src, tgt)]) (edges g ++ [edata])
           (finalized g).

Definition source g e : Z := (ends g !!! e).1.
Definition target g e : Z := (ends g !!! e).2.

(** Edge identifiers into and out of [v], in the order of insertion. *)
Definition edges_into g v : list nat :=
  filter (λ e, target g e = v) (seq 0 (length (ends g))).
Definition edges_from g v : list nat :=
  filter (λ e, source g e = v) (seq 0 (length (ends g))).

Definition by_source g : relation nat := λ e1 e2, source g e1 ≤ source g e2.
Definition by_target g : relation nat := λ e1 e2, target g e1 ≤ target g e2.

#[export] Instance by_source_dec g e1 e2 : Decision (by_source g e1 e2).
Proof. unfold by_source. apply _. Defined.
#[export] Instance by_target_dec g e1 e2 : Decision (by_target g e1 e2).
Proof. unfold by_target. apply _. Defined.

(** Modelled from the spec: "finalize() locks topology and builds the
    reverse-edge pairing"; the source names the mechanism at lines 363-364,
    "the sorting of the edge ids".  Once finalized, the in-edges of a
    vertex are listed by increasing source and its out-edges by increasing
    target. *)
Definition finalize g : graph D :=
  mk_graph (vertices g) (ends g) (edges g) true.

Definition in_edge_ids g v : list nat :=
  if finalized g then merge_sort (by_source g) (edges_into g v)
  else edges_into g v.
Definition out_edge_ids g v : list nat :=
  if finalized g then merge_sort (by_target g) (edges_from g v)
  else edges_from g v.

(** [scope.vertex_data()] and [scope.edge_data(eid)] as reads and writes
    of the store.  An identifier out of range is undefined in the source;
    here a read gives the default value and a write is dropped. *)
Definition get_vertex g v : vertex_data D := vertices g !!! Z.to_nat v.
Definition get_edge g e : edge_data D := edges g !!! e.

Definition put_vertex g v (d : vertex_data D) : graph D :=
  mk_graph (<[Z.to_nat v := d]> (vertices g)) (ends g) (edges g) (finalized g).
Definition put_edge g e (d : edge_data D) : graph D :=
  mk_graph (vertices g) (ends g) (<[e := d]> (edges g)) (finalized g).
End Graph.

(** ** construct_graph (lines 400-465) *)

Section Construct.
Context {D BF : Type} {ops : FactorOps D BF}.

(** Line 422-423: [-(obs - pred)*(obs - pred) / (2.0 * sigmaSq)].  Unary
    minus binds first, then [*] and [/] from the left. *)
Definition potential_entry (obs sigmaSq : D) (pred : Z) : D :=
  d_div (d_mul (d_neg (d_sub obs (d_of_size pred)))
               (d_sub obs (d_of_size pred)))
        (d_mul d_two sigmaSq).

(** Body of the vertex loop (lines 416-429); [None] is the failed assert. *)
Definition add_pixel_vertex (img : image D) (num_rings : Z) (sigmaSq : D)
    (i j : Z) (st : vertex_data D * graph D)
  : option (vertex_data D * graph D) :=
  let '(vdata, g) := st in
  let pixel_id := vertid img i j mod uint32_mod in
  let bel := set_var (belief vdata) pixel_id in
  let pot := set_var (potential vdata) pixel_id in
  let obs := pixel img i j in
  let pot := for_size num_rings
               (λ pred p, set_logP p pred (potential_entry obs sigmaSq pred))
               pot in
  let pot := normalize pot in
  let vdata := mk_vertex_data pot bel in
  let '(g, id) := add_vertex g vdata in
  if decide (id = vertid img i j) then Some (vdata, g) else None.

(** Lines 444-446 (and the three blocks after it): set the variable of
    both messages, add the edge. *)
Definition link (img : image D) (vid : Z) (ni nj : Z)
    (st : edge_data D * graph D) : edge_data D * graph D :=
  let '(edata, g) := st in
  let msg := set_var (message edata) (vertid img ni nj) in
  let old := set_var (old_message edata) (var msg) in
  let edata := mk_edge_data msg old in
  (edata, add_edge g vid (vertid img ni nj) edata).

(** Body of the edge loop (lines 442-461).  [i-1] and [j-1] are computed
    on [size_t] and wrap around at 0. *)
Definition add_pixel_edges (img : image D) (i j : Z)
    (st : edge_data D * graph D) : edge_data D * graph D :=
  let vid := vertid img i j in
  let st := if wrap (i - 1) <? rows img
            then link img vid (wrap (i - 1)) j st else st in
  let st := if wrap (i + 1) <? rows img
            then link img vid (wrap (i + 1)) j st else st in
  let st := if wrap (j - 1) <? cols img
            then link img vid i (wrap (j - 1)) st else st in
  let st := if wrap (j + 1) <? cols img
            then link img vid i (wrap (j + 1)) st else st in
  st.

(** The blob of lines 405-411 and the one of lines 434-438. *)
Definition initial_vdata (num_rings : Z) : vertex_data D :=
  mk_vertex_data (normalize (uniform (resize empty_factor num_rings)))
                 (normalize (uniform (resize empty_factor num_rings))).
Definition initial_edata (num_rings : Z) : edge_data D :=
  let msg := normalize (uniform (resize empty_factor num_rings)) in
  mk_edge_data msg msg.

Definition add_vertices (img : image D) (num_rings : Z) (sigma : D)
    (g : graph D) : option (vertex_data D * graph D) :=
  let sigmaSq := d_mul sigma sigma in
  for_size_opt (rows img) (λ i,
    for_size_opt (cols img) (λ j,
      add_pixel_vertex img num_rings sigmaSq i j))
    (initial_vdata num_rings, g).

Definition add_edges (img : image D) (num_rings : Z) (g : graph D)
  : edge_data D * graph D :=
  for_size (rows img) (λ i,
    for_size (cols img) (λ j, add_pixel_edges img i j))
    (initial_edata num_rings, g).

Definition construct_graph (img : image D) (num_rings : Z) (sigma : D)
    (g : graph D) : option (graph D) :=
  '(_, g) ← add_vertices img num_rings sigma g;
  let '(_, g) := add_edges img num_rings g in
  Some (finalize g).
End Construct.

(** ** bp_update (lines 304-397) *)

(** The three shared constants [EDGE_FACTOR_ID], [BOUND_ID], [DAMPING_ID]. *)
Record shared_data (D BF : Type) : Type := mk_shared {
  edge_factor : BF;
  bound : D;
  damping : D
}.
Arguments mk_shared {D BF} _ _ _.
Arguments edge_factor {D BF} _.
Arguments bound {D BF} _.
Arguments damping {D BF} _.

Section Update.
Context {D BF : Type} {ops : FactorOps D BF}.

(** What [scheduler.add_task(task, residual)] receives: the vertex of the
    task and its priority. *)
Definition task : Type := Z * D.

(** Lines 329-335: the current message of every in-edge becomes its old
    message. *)
Definition flip_messages (in_edges : list nat) (g : graph D) : graph D :=
  foreach in_edges (λ ineid g,
    let in_edge := get_edge g ineid in
    put_edge g ineid (mk_edge_data (message in_edge) (message in_edge))) g.

(** Lines 340-348: the belief of [v]. *)
Definition compute_belief (v : Z) (in_edges : list nat) (g : graph D)
  : graph D :=
  let v_data := get_vertex g v in
  let bel := potential v_data in
  let bel := foreach in_edges (λ ineid b,
               times b (old_message (get_edge g ineid))) bel in
  let bel := normalize bel in
  put_vertex g v (mk_vertex_data (potential v_data) bel).

(** Lines 360-395: the body of the loop over the paired edges.  The state
    is the graph, the scratch message [tmp_msg] (declared before the loop)
    and the tasks handed to the scheduler so far. *)
Definition send_message (sh : shared_data D BF) (v : Z)
    (in_edges out_edges : list nat) (i : Z)
    (st : graph D * unary_factor D * list task)
  : option (graph D * unary_factor D * list task) :=
  let '(g, tmp_msg, tasks) := st in
  let outeid := out_edges !!! Z.to_nat i in
  let ineid := in_edges !!! Z.to_nat i in
  if decide (target g outeid = source g ineid) then
    let in_edge := get_edge g ineid in
    let out_edge := get_edge g outeid in
    let cavity := belief (get_vertex g v) in
    let cavity := divide cavity (old_message in_edge) in
    let cavity := normalize cavity in
    let tmp_msg := resize tmp_msg (arity (message out_edge)) in
    let tmp_msg := set_var tmp_msg (var (message out_edge)) in
    let tmp_msg := convolve tmp_msg (edge_factor sh) cavity in
    let tmp_msg := normalize tmp_msg in
    let tmp_msg := damp tmp_msg (message out_edge) (damping sh) in
    let res := residual tmp_msg (old_message out_edge) in
    let g := put_edge g outeid (mk_edge_data tmp_msg (old_message out_edge)) in
    let tasks := if d_gt res (bound sh)
                 then tasks ++ [(target g outeid, res)] else tasks in
    Some (g, tmp_msg, tasks)
  else None.

Definition send_messages (sh : shared_data D BF) (v : Z)
    (in_edges out_edges : list nat) (g : graph D)
  : option (graph D * unary_factor D * list task) :=
  for_size_opt (Z.of_nat (length in_edges))
    (send_message sh v in_edges out_edges) (g, empty_factor, []).

(** [None] is a failed assertion (lines 309, 325, 365); otherwise the new
    store and the tasks added to the scheduler, in order. *)
Definition bp_update (g : graph D) (v : Z)
    (shared : option (shared_data D BF)) : option (graph D * list task) :=
  sh ← shared;
  let in_edges := in_edge_ids g v in
  let out_edges := out_edge_ids g v in
  if decide (length in_edges = length out_edges) then
    let g := flip_messages in_edges g in
    let g := compute_belief v in_edges g in
    '(g, _, tasks) ← send_messages sh v in_edges out_edges g;
    Some (g, tasks)
  else None.
End Update.

(** ** The smoothing selection of main (lines 109-297) *)

Inductive exit_code : Type := EXIT_SUCCESS | EXIT_FAILURE.

(** What [main] does to the outside, in order: what it writes to
    [std::cout] (a [Say] for each line that is a string literal) and the
    calls into the image and the engine. *)
Inductive event (D BF : Type) : Type :=
  | Say (s : string)
  | SayOptions
  | SayFactor (f : BF)
  | PaintSunset (colors : Z)
  | Corrupt (sigma : D)
  | SaveImage (fn : string)
  | ConstructGraph (colors : Z) (sigma : D)
  | SetConstants (sh : shared_data D BF)
  | SetUpdateFunction
  | AddTaskToAll
  | StartEngine
  | SayStatistics
  | RenderMap
  | RenderExp.
Arguments Say {D BF} _.
Arguments SayOptions {D BF}.
Arguments SayFactor {D BF} _.
Arguments PaintSunset {D BF} _.
Arguments Corrupt {D BF} _.
Arguments SaveImage {D BF} _.
Arguments ConstructGraph {D BF} _ _.
Arguments SetConstants {D BF} _.
Arguments SetUpdateFunction {D BF}.
Arguments AddTaskToAll {D BF}.
Arguments StartEngine {D BF}.
Arguments SayStatistics {D BF}.
Arguments RenderMap {D BF}.
Arguments RenderExp {D BF}.

(** The variables the command line sets (lines 119-130). *)
Record options (D : Type) : Type := mk_options {
  opt_bound : D;
  opt_damping : D;
  opt_colors : Z;
  opt_sigma : D;
  opt_lambda : D;
  opt_smoothing : string;
  opt_orig_fn : string;
  opt_noisy_fn : string;
  opt_pred_fn : string;
  opt_pred_type : string
}.
Arguments mk_options {D} _ _ _ _ _ _ _ _ _ _.
Arguments opt_bound {D} _.
Arguments opt_damping {D} _.
Arguments opt_colors {D} _.
Arguments opt_sigma {D} _.
Arguments opt_lambda {D} _.
Arguments opt_smoothing {D} _.
Arguments opt_orig_fn {D} _.
Arguments opt_noisy_fn {D} _.
Arguments opt_pred_fn {D} _.
Arguments opt_pred_type {D} _.

Section Main.
Context {D BF : Type} {ops : FactorOps D BF}.

(** Lines 236-245: the shared edge potential, or nothing for a smoothing
    that is neither "square" nor "laplace". *)
Definition select_edge_potential (colors : Z) (smoothing : string)
    (lambda : D) : option BF :=
  let edge_potential := binary_factor 0 colors 0 colors in
  if decide (smoothing = "square"%string) then
    Some (set_as_agreement edge_potential lambda)
  else if decide (smoothing = "laplace"%string) then
    Some (set_as_laplace edge_potential lambda)
  else None.

(** [main] after the command line is parsed; [parsed] is the result of
    [clopts.parse]. *)
Definition main (parsed : bool) (o : options D)
  : list (event D BF) * exit_code :=
  let banner := [Say "This program creates and denoises a synthetic ";
                 Say "image using loopy belief propagation inside ";
                 Say "the graphlab framework."]%string in
  if negb parsed then (banner, EXIT_FAILURE) else
  let setup := banner ++
    [SayOptions;
     Say "Creating a synethic image. "; PaintSunset (opt_colors o);
     Say "Saving image. "; SaveImage (opt_orig_fn o);
     Say "Corrupting Image. "; Corrupt (opt_sigma o);
     Say "Saving corrupted image. "; SaveImage (opt_noisy_fn o);
     Say "Constructing pairwise Markov Random Field. ";
     ConstructGraph (opt_colors o) (opt_sigma o);
     Say "Initializing shared edge agreement factor. "]%string in
  match select_edge_potential (opt_colors o) (opt_smoothing o)
                              (opt_lambda o) with
  | None => (setup ++ [Say "Invalid smoothing stype!"%string], EXIT_FAILURE)
  | Some edge_potential =>
    let run := setup ++
      [SayFactor edge_potential;
       SetConstants (mk_shared edge_potential (opt_bound o) (opt_damping o));
       SetUpdateFunction;
       Say "Running the engine. "; AddTaskToAll; StartEngine;
       SayStatistics; Say "Rendering the cleaned image. "]%string in
    let done := [Say "Saving cleaned image. "; SaveImage (opt_pred_fn o);
                 Say "Done!"]%string in
    if decide (opt_pred_type o = "map"%string) then
      (run ++ RenderMap :: done, EXIT_SUCCESS)
    else if decide (opt_pred_type o = "exp"%string) then
      (run ++ RenderExp :: done, EXIT_SUCCESS)
    else
      (run ++ [Say ("Invalid prediction type! : " +:+ opt_pred_type o)%string],
       EXIT_FAILURE)
  end.
End Main.

(** ** An executable instance *)

(** Doubles as exact rationals and log-sum-exp as its max-plus limit
    (max-product belief propagation in the log domain).  It serves to run
    the model on concrete inputs; the theorems below hold for every
    instance of [FactorOps]. *)
Module MaxPlus.
Local Open Scope Q_scope.

Definition qmax (a b : Q) : Q := if Qle_bool a b then b else a.
Definition qmaxl (l : list Q) : Q :=
  match l with [] => 0 | x :: l => foldl qmax x l end.

(** A binary factor is its table of log-weights. *)
Definition table : Type := Z → Z → Q.

Definition q_normalize (f : unary_factor Q) : unary_factor Q :=
  mk_unary (var f) ((λ x, Qred (x - qmaxl (logP f))) <$> logP f).

Definition q_convolve (this : unary_factor Q) (b : table)
    (other : unary_factor Q) : unary_factor Q :=
  mk_unary (var this)
    ((λ s, qmaxl (imap (λ s' u, Qred (b s (Z.of_nat s') + u)) (logP other)))
       <$> seqZ 0 (arity this)).

Definition q_damp (this other : unary_factor Q) (alpha : Q)
  : unary_factor Q :=
  mk_unary (var this)
    (zip_with (λ new prev, Qred (alpha * prev + (1 - alpha) * new))
              (logP this) (logP other)).

Definition q_residual (this other : unary_factor Q) : Q :=
  qmaxl (zip_with (λ a b, Qred (Qabs (a - b))) (logP this) (logP other)).

#[global] Instance ops : FactorOps Q table := {|
  d_of_size := λ z, inject_Z z;
  d_two := 2;
  d_neg := λ a, Qred (- a);
  d_sub := λ a b, Qred (a - b);
  d_mul := λ a b, Qred (a * b);
  d_div := λ a b, Qred (a / b);
  d_gt := λ a b, negb (Qle_bool a b);
  resize := λ f k, mk_unary (var f) (replicate (Z.to_nat k) 0);
  uniform := λ f, mk_unary (var f) (replicate (length (logP f)) 0);
  normalize := q_normalize;
  times := λ f g, mk_unary (var f) (zip_with (λ a b, Qred (a + b)) (logP f) (logP g));
  divide := λ f g, mk_unary (var f) (zip_with (λ a b, Qred (a - b)) (logP f) (logP g));
  convolve := q_convolve;
  damp := q_damp;
  residual := q_residual;
  binary_factor := λ _ _ _ _, (λ _ _, 0);
  set_as_agreement := λ _ lambda, (λ s s', if decide (s = s') then 0 else Qred (- lambda));
  set_as_laplace := λ _ lambda, (λ s s', Qred (- (inject_Z (Z.abs (s - s')) * lambda)))
|}.

(** A 2 x 2 image and a 1 x 2 image with three colours. *)
Definition img22 : image Q :=
  mk_image 2 2 (λ i j, inject_Z (i + j)).
Definition img12 : image Q :=
  mk_image 1 2 (λ i j, inject_Z (2 * j)).

Definition graph_of (img : image Q) : graph Q :=
  default empty_graph (construct_graph img 3 1 empty_graph).

Definition shared : shared_data Q table :=
  mk_shared (set_as_laplace (binary_factor 0 3 0 3) 1) (1 # 1000) (1 # 10).

(** The defaults of [main] with a smoothing that is not a policy. *)
Definition gaussian_options : options Q :=
  mk_options (1 # 1000) (1 # 10) 5 2 10 "gaussian"
             "source_img.pgm" "noisy_img.pgm" "pred_img.pgm" "map".

(** The defaults of [main] with a prediction type that is not one. *)
Definition median_options : options Q :=
  mk_options (1 # 1000) (1 # 10) 5 2 10 "laplace"
             "source_img.pgm" "noisy_img.pgm" "pred_img.pgm" "median".
End MaxPlus.

(** ** Vocabulary of the statements *)

Section Vocabulary.
Context {D BF : Type} {ops : FactorOps D BF}.

(** A cell of the image. *)
Definition in_bounds (img : image D) (i j : Z) : Prop :=
  0 ≤ i < rows img ∧ 0 ≤ j < cols img.

(** Axis-aligned neighbours. *)
Definition adjacent (i j i' j' : Z) : Prop :=
  (i' = i - 1 ∧ j' = j) ∨ (i' = i + 1 ∧ j' = j) ∨
  (i' = i ∧ j' = j - 1) ∨ (i' = i ∧ j' = j + 1).

(** A cell on the border of the image. *)
Definition on_boundary (img : image D) (i j : Z) : Prop :=
  i = 0 ∨ i = rows img - 1 ∨ j = 0 ∨ j = cols img - 1.

(** The (source, target) pairs that [add_pixel_edges] adds for a cell, in
    order, and those of the whole edge loop. *)
Definition cell_links (img : image D) (i j : Z) : list (Z * Z) :=
  let vid := vertid img i j in
  (if wrap (i - 1) <? rows img then [(vid, vertid img (wrap (i - 1)) j)] else [])
  ++ (if wrap (i + 1) <? rows img then [(vid, vertid img (wrap (i + 1)) j)] else [])
  ++ (if wrap (j - 1) <? cols img then [(vid, vertid img i (wrap (j - 1)))] else [])
  ++ (if wrap (j + 1) <? cols img then [(vid, vertid img i (wrap (j + 1)))] else []).

Definition lattice_links (img : image D) : list (Z * Z) :=
  i ← seqZ 0 (rows img); j ← seqZ 0 (cols img); cell_links img i j.

(** The uniform, normalized factor of lines 405-411 and 434-437. *)
Definition uniform_factor (num_rings : Z) : unary_factor D :=
  normalize (uniform (resize empty_factor num_rings)).

(** The data of an edge into vertex [tgt]. *)
Definition fresh_edge (num_rings : Z) (tgt : Z) : edge_data D :=
  mk_edge_data (set_var (uniform_factor num_rings) tgt)
               (set_var (uniform_factor num_rings) tgt).

(** The log-weight of the spec, [-(obs - k)^2 / (2 sigma^2)]. *)
Definition gaussian_log_weight (obs sigma : D) (k : Z) : D :=
  d_div (d_neg (d_mul (d_sub obs (d_of_size k)) (d_sub obs (d_of_size k))))
        (d_mul d_two (d_mul sigma sigma)).

(** The data of the vertex of cell [(i, j)]. *)
Definition pixel_vertex (img : image D) (num_rings : Z) (sigma : D)
    (i j : Z) : vertex_data D :=
  let pixel_id := vertid img i j mod uint32_mod in
  mk_vertex_data
    (normalize (mk_unary pixel_id
       ((λ k, gaussian_log_weight (pixel img i j) sigma k)
          <$> seqZ 0 num_rings)))
    (set_var (uniform_factor num_rings) pixel_id).

(** What the statements about factors of a given arity need of the factor
    methods: [resize] sets the arity, [uniform] and [normalize] keep it,
    and a product changes sign with either operand (as IEEE 754
    multiplication does). *)
Class FactorLaws : Prop := {
  arity_resize f k : 0 ≤ k → arity (resize f k) = k;
  arity_uniform f : arity (uniform f) = arity f;
  arity_normalize f : arity (normalize f) = arity f;
  neg_mul a b : d_mul (d_neg a) b = d_neg (d_mul a b)
}.

(** Steps a to c of the update of the spec: the message sent along an
    out-edge, from the belief, the old message of the paired in-edge and
    the previous message of the out-edge.  [scratch] is the object that
    [convolve] is called on. *)
Definition outgoing (sh : shared_data D BF)
    (bel old_in prev_out scratch : unary_factor D) : unary_factor D :=
  let cavity := normalize (divide bel old_in) in
  let this := set_var (resize scratch (arity prev_out)) (var prev_out) in
  let candidate := normalize (convolve this (edge_factor sh) cavity) in
  damp candidate prev_out (damping sh).

(** The value of [tmp_msg] when iteration [i] of the loop over the paired
    edges starts: default-constructed, then the last message sent. *)
Definition scratch_at (g : graph D) (out_edges : list nat) (i : nat)
  : unary_factor D :=
  match i with
  | O => empty_factor
  | Datatypes.S k => message (get_edge g (out_edges !!! k))
  end.

(** The scope of a vertex on which an update runs: the edge store follows
    the topology, the vertex is stored, the out-edges and in-edges are
    paired by position and the vertex has no edge to itself. *)
Record scope_ok (g : graph D) (v : Z) : Prop := {
  edges_stored : length (edges g) = length (ends g);
  vertex_stored : 0 ≤ v < num_vertices g;
  edges_paired : target g <$> out_edge_ids g v = source g <$> in_edge_ids g v;
  no_self_loop : (v, v) ∉ ends g
}.

(** Two stores that differ at most in the current message of the edges
    [es]. *)
Definition same_but_messages (es : list nat) (g1 g2 : graph D) : Prop :=
  vertices g1 = vertices g2 ∧ ends g1 = ends g2 ∧
  finalized g1 = finalized g2 ∧ length (edges g1) = length (edges g2) ∧
  ∀ e, old_message (get_edge g1 e) = old_message (get_edge g2 e) ∧
       (e ∉ es → message (get_edge g1 e) = message (get_edge g2 e)).

(** The update after the flip of the messages (lines 337-396). *)
Definition update_after_flip (sh : shared_data D BF) (v : Z)
    (in_edges out_edges : list nat) (g : graph D)
  : option (graph D * list task) :=
  '(g, _, tasks) ← send_messages sh v in_edges out_edges
                      (compute_belief v in_edges g);
  Some (g, tasks).

(** The tasks of the first [n] out-edges: the target with the residual
    as priority, for the residuals above the bound. *)
Definition reported (sh : shared_data D BF) (g0 g' : graph D)
    (out_edges : list nat) (n : nat) : list task :=
  i ← seq 0 n;
  let outeid := out_edges !!! i in
  let res := residual (message (get_edge g' outeid))
                      (old_message (get_edge g0 outeid)) in
  if d_gt res (bound sh) then [(target g0 outeid, res)] else [].

#[export] Instance in_bounds_dec (img : image D) i j :
  Decision (in_bounds img i j).
Proof. unfold in_bounds. apply _. Defined.

(** The four axis-aligned neighbours of a cell, in the order of the tests
    of [add_pixel_edges]: up, down, left, right. *)
Definition neighbours (i j : Z) : list (Z * Z) :=
  [(i - 1, j); (i + 1, j); (i, j - 1); (i, j + 1)].

Definition in_image (img : image D) (c : Z * Z) : Prop :=
  in_bounds img c.1 c.2.

#[export] Instance in_image_dec (img : image D) c : Decision (in_image img c).
Proof. unfold in_image. apply _. Defined.

(** The vertex data that the body of the vertex loop stores for cell
    [(i, j)] (lines 417-425), from the blob left by the previous cell. *)
Definition pixel_step (img : image D) (num_rings : Z) (sigmaSq : D)
    (i j : Z) (vdata : vertex_data D) : vertex_data D :=
  let pixel_id := vertid img i j mod uint32_mod in
  let bel := set_var (belief vdata) pixel_id in
  let pot := set_var (potential vdata) pixel_id in
  let obs := pixel img i j in
  let pot := for_size num_rings
               (λ pred p, set_logP p pred (potential_entry obs sigmaSq pred))
               pot in
  mk_vertex_data (normalize pot) bel.

(** The state of the edge loop once the links [links] are added to [g0]. *)
Definition edges_added (num_rings : Z) (g0 : graph D) (links : list (Z * Z))
    (st : edge_data D * graph D) : Prop :=
  vertices st.2 = vertices g0 ∧ finalized st.2 = finalized g0 ∧
  ends st.2 = ends g0 ++ links ∧
  edges st.2 = edges g0 ++ ((λ l, fresh_edge num_rings l.2) <$> links) ∧
  logP (message st.1) = logP (uniform_factor num_rings) ∧
  logP (old_message st.1) = logP (uniform_factor num_rings).

(** The state of the vertex loop once the first [n] cells, in row-major
    order, are stored in the empty graph: [Q] holds of the blob, [R] of
    the data stored for each cell. *)
Definition vertices_added (img : image D) (Q : vertex_data D → Prop)
    (R : Z → Z → vertex_data D → Prop) (n : Z)
    (st : vertex_data D * graph D) : Prop :=
  Q st.1 ∧ ends st.2 = [] ∧ edges st.2 = [] ∧ finalized st.2 = false ∧
  num_vertices st.2 = n ∧
  ∀ i j, in_bounds img i j → i * cols img + j < n →
    ∃ d, vertices st.2 !! Z.to_nat (i * cols img + j) = Some d ∧ R i j d.

(** The state of the loop over the paired edges after [k] iterations,
    started from the store [g2]: only messages of the first [k] out-edges
    have changed, each is the message of the update rule, the scratch
    message is the last one sent and the tasks are those reported so
    far. *)
Definition sent (sh : shared_data D BF) (v : Z)
    (in_edges out_edges : list nat) (g2 : graph D) (k : nat)
    (st : graph D * unary_factor D * list task) : Prop :=
  let g := st.1.1 in
  vertices g = vertices g2 ∧ ends g = ends g2 ∧
  finalized g = finalized g2 ∧ length (edges g) = length (edges g2) ∧
  (∀ e, old_message (get_edge g e) = old_message (get_edge g2 e)) ∧
  (∀ e, (∀ i, (i < k)%nat → out_edges !!! i ≠ e) →
        message (get_edge g e) = message (get_edge g2 e)) ∧
  (∀ i, (i < k)%nat →
        message (get_edge g (out_edges !!! i))
        = outgoing sh (belief (get_vertex g2 v))
                   (old_message (get_edge g2 (in_edges !!! i)))
                   (message (get_edge g2 (out_edges !!! i)))
                   (scratch_at g out_edges i)) ∧
  st.1.2 = scratch_at g out_edges k ∧
  st.2 = reported sh g2 g out_edges k.

(** A schedule: the updates of the vertices [vs], one after the other, each
    on the store left by the previous one, with the tasks they hand to the
    scheduler in order.  [None] when an update aborts. *)
Definition run_updates (sh : shared_data D BF) (vs : list Z) (g : graph D)
  : option (graph D * list task) :=
  foldl (λ acc v,
           '(g, tasks) ← acc;
           '(g', new_tasks) ← bp_update g v (Some sh);
           Some (g', tasks ++ new_tasks))
        (Some (g, [])) vs.

(** The damped candidate that an update of a vertex computes for its i-th
    out-edge (steps a to c of the spec), from the store [g] the update
    starts on and the belief [bel] it has computed: the old message of the
    paired in-edge is the message that edge holds in [g], the previous
    outgoing message is the one the out-edge holds in [g], and the scratch
    message is default-constructed for the first out-edge and the
    candidate of the out-edge before for the others. *)
Fixpoint candidate_at (sh : shared_data D BF) (bel : unary_factor D)
    (g : graph D) (in_edges out_edges : list nat) (i : nat) {struct i}
  : unary_factor D :=
  outgoing sh bel
    (message (get_edge g (in_edges !!! i)))
    (message (get_edge g (out_edges !!! i)))
    (match i with
     | O => empty_factor
     | Datatypes.S k => candidate_at sh bel g in_edges out_edges k
     end).
End Vocabulary.

(** * Properties *)

(** ** Loop rules *)

(** An invariant indexed by the number of iterations done. *)
Lemma foldl_invariant {A S : Type} (body : A → S → S) (P : nat → S → Prop)
    (l : list A) (s : S) :
  P 0%nat s →
  (∀ k x s, l !! k = Some x → P k s → P (Datatypes.S k) (body x s)) →
  P (length l) (foldl (λ acc x, body x acc) s l).
Proof.
  revert P s. induction l as [|x l IH]; intros P s H0 Hstep; [done|].
  simpl. apply (IH (λ k, P (Datatypes.S k))).
  - by apply (Hstep 0%nat).
  - intros k y s' Hk. by apply (Hstep (Datatypes.S k)).
Qed.

(** The same for a body that may abort: if no iteration aborts from a state
    of the invariant, the loop returns. *)
Lemma foldl_opt_invariant {A S : Type} (body : A → S → option S)
    (P : nat → S → Prop) (l : list A) (s : S) :
  P 0%nat s →
  (∀ k x s, l !! k = Some x → P k s →
            ∃ s', body x s = Some s' ∧ P (Datatypes.S k) s') →
  ∃ s', foldl (λ acc x, acc ≫= body x) (Some s) l = Some s' ∧ P (length l) s'.
Proof.
  revert P s. induction l as [|x l IH]; intros P s H0 Hstep; [by exists s|].
  simpl. destruct (Hstep 0%nat x s eq_refl H0) as (s1 & -> & H1).
  apply (IH (λ k, P (Datatypes.S k))); [done|].
  intros k y s' Hk. by apply (Hstep (Datatypes.S k)).
Qed.

Lemma for_size_invariant {S : Type} (body : Z → S → S) (P : Z → S → Prop)
    (n : Z) (s : S) :
  0 ≤ n → P 0 s →
  (∀ i s, 0 ≤ i < n → P i s → P (i + 1) (body i s)) →
  P n (for_size n body s).
Proof.
  intros Hn H0 Hstep. unfold for_size.
  pose proof (foldl_invariant body (λ k, P (Z.of_nat k)) (seqZ 0 n) s) as Hf.
  rewrite length_seqZ, Z2Nat.id in Hf by done. apply Hf; [done|].
  intros k x s' [-> Hk]%lookup_seqZ Hs.
  rewrite Nat2Z.inj_succ, <-Z.add_1_r. apply Hstep; [lia|]. by rewrite Z.add_0_l.
Qed.

Lemma for_size_opt_invariant {S : Type} (body : Z → S → option S)
    (P : Z → S → Prop) (n : Z) (s : S) :
  0 ≤ n → P 0 s →
  (∀ i s, 0 ≤ i < n → P i s → ∃ s', body i s = Some s' ∧ P (i + 1) s') →
  ∃ s', for_size_opt n body s = Some s' ∧ P n s'.
Proof.
  intros Hn H0 Hstep. unfold for_size_opt.
  pose proof (foldl_opt_invariant body (λ k, P (Z.of_nat k)) (seqZ 0 n) s) as Hf.
  rewrite length_seqZ, Z2Nat.id in Hf by done. apply Hf; [done|].
  intros k x s' [-> Hk]%lookup_seqZ Hs.
  rewrite Nat2Z.inj_succ, <-Z.add_1_r, Z.add_0_l. apply Hstep; [lia|done].
Qed.

(** ** Arithmetic of the lattice *)

Lemma wrap_small z : 0 ≤ z < size_mod → wrap z = z.
Proof. intros. unfold wrap. by apply Z.mod_small. Qed.

Lemma wrap_minus_one : wrap (0 - 1) = size_mod - 1.
Proof. reflexivity. Qed.

Lemma size_mod_pos : 0 < size_mod.
Proof. reflexivity. Qed.

Section Lattice.
Context {D : Type} (img : image D).
Hypothesis rows_size : 0 ≤ rows img < size_mod.
Hypothesis cols_size : 0 ≤ cols img < size_mod.

Lemma test_pred n k : 0 ≤ n < size_mod → 0 ≤ k < n →
  (wrap (k - 1) <? n) = true ↔ 0 ≤ k - 1.
Proof.
  intros Hn Hk. rewrite Z.ltb_lt. destruct (decide (k = 0)) as [->|].
  - rewrite wrap_minus_one. lia.
  - rewrite wrap_small by lia. lia.
Qed.

Lemma test_succ n k : 0 ≤ n < size_mod → 0 ≤ k < n →
  (wrap (k + 1) <? n) = true ↔ k + 1 < n.
Proof. intros Hn Hk. rewrite Z.ltb_lt, wrap_small by lia. done. Qed.

Lemma wrap_pred n k : 0 ≤ n < size_mod → 0 ≤ k < n →
  (wrap (k - 1) <? n) = true → wrap (k - 1) = k - 1.
Proof.
  intros Hn Hk Ht. apply test_pred in Ht; [|done..]. apply wrap_small; lia.
Qed.

Lemma wrap_succ n k : 0 ≤ n < size_mod → 0 ≤ k < n →
  wrap (k + 1) = k + 1.
Proof. intros. apply wrap_small; lia. Qed.

Hypothesis image_size : rows img * cols img < size_mod.

Lemma cell_index_bound i j :
  in_bounds img i j → 0 ≤ i * cols img + j < rows img * cols img.
Proof. intros [??]. nia. Qed.

Lemma vertid_in_bounds i j :
  in_bounds img i j → vertid img i j = i * cols img + j.
Proof.
  intros Hc. pose proof (cell_index_bound i j Hc).
  unfold vertid. apply wrap_small. lia.
Qed.

Lemma cell_index_inj i j i' j' :
  in_bounds img i j → in_bounds img i' j' →
  i * cols img + j = i' * cols img + j' → i = i' ∧ j = j'.
Proof.
  intros [??] [??] Heq.
  assert (i = i') as -> by nia. lia.
Qed.

Lemma vertid_inj i j i' j' :
  in_bounds img i j → in_bounds img i' j' →
  vertid img i j = vertid img i' j' → i = i' ∧ j = j'.
Proof.
  intros Hc Hc'. rewrite !vertid_in_bounds by done.
  by apply cell_index_inj.
Qed.
End Lattice.

(** ** The links of the lattice *)

Section Links.
Context {D : Type} (img : image D).
Hypothesis rows_size : 0 ≤ rows img < size_mod.
Hypothesis cols_size : 0 ≤ cols img < size_mod.
Hypothesis image_size : rows img * cols img < size_mod.

Local Abbreviation link_to i j :=
  (λ c : Z * Z, (vertid img i j, vertid img c.1 c.2)).

Lemma link_test (i j i' j' : Z) (b : bool) (w : Z * Z) :
  (b = true ↔ in_bounds img i' j') →
  (b = true → w = (i', j')) →
  (if b then [(vertid img i j, vertid img w.1 w.2)] else [])
  = link_to i j <$> filter (in_image img) [(i', j')].
Proof.
  intros Hb Hw. rewrite filter_cons, filter_nil. unfold in_image at 1. simpl.
  destruct b.
  - rewrite Hw, decide_True by tauto. done.
  - rewrite decide_False; [done|]. intros ?%Hb. done.
Qed.

(** On a cell of the image the four tests select the neighbours that are
    cells of the image. *)
Lemma cell_links_neighbours i j :
  in_bounds img i j →
  cell_links img i j
  = link_to i j <$> filter (in_image img) (neighbours i j).
Proof.
  intros [Hi Hj]. unfold cell_links, neighbours.
  change [(i - 1, j); (i + 1, j); (i, j - 1); (i, j + 1)]
    with ([(i - 1, j)] ++ [(i + 1, j)] ++ [(i, j - 1)] ++ [(i, j + 1)]).
  rewrite !filter_app, !fmap_app.
  f_equal; [|f_equal; [|f_equal]].
  - apply (link_test i j (i - 1) j _ (wrap (i - 1), j)).
    + rewrite test_pred by done. unfold in_bounds. lia.
    + intros Ht. by rewrite (wrap_pred (rows img)).
  - apply (link_test i j (i + 1) j _ (wrap (i + 1), j)).
    + rewrite test_succ by done. unfold in_bounds. lia.
    + intros _. by rewrite (wrap_succ (rows img)).
  - apply (link_test i j i (j - 1) _ (i, wrap (j - 1))).
    + rewrite test_pred by done. unfold in_bounds. lia.
    + intros Ht. by rewrite (wrap_pred (cols img)).
  - apply (link_test i j i (j + 1) _ (i, wrap (j + 1))).
    + rewrite test_succ by done. unfold in_bounds. lia.
    + intros _. by rewrite (wrap_succ (cols img)).
Qed.

Lemma elem_of_neighbours i j i' j' :
  (i', j') ∈ neighbours i j ↔ adjacent i j i' j'.
Proof.
  unfold neighbours, adjacent. rewrite !elem_of_cons, elem_of_nil.
  split; [intros [?|[?|[?|[?|[]]]]]; simplify_eq; lia|].
  intros [[-> ->]|[[-> ->]|[[-> ->]|[-> ->]]]]; tauto.
Qed.

Lemma NoDup_neighbours i j : NoDup (neighbours i j).
Proof.
  unfold neighbours. repeat (apply NoDup_cons; split); [..|apply NoDup_nil_2];
    rewrite ?elem_of_cons, elem_of_nil; intros H; intuition (simplify_eq; lia).
Qed.

Lemma adjacent_sym i j i' j' : adjacent i j i' j' → adjacent i' j' i j.
Proof. unfold adjacent. lia. Qed.

Lemma adjacent_ne i j i' j' : adjacent i j i' j' → (i, j) ≠ (i', j').
Proof. unfold adjacent. intros Ha Heq. simplify_eq. lia. Qed.

Lemma elem_of_cell_links i j s t :
  in_bounds img i j →
  (s, t) ∈ cell_links img i j ↔
  s = vertid img i j ∧
  ∃ i' j', in_bounds img i' j' ∧ adjacent i j i' j' ∧ t = vertid img i' j'.
Proof.
  intros Hc. rewrite cell_links_neighbours by done.
  rewrite list_elem_of_fmap. split.
  - intros ([i' j'] & Heq & [Hin Hn]%list_elem_of_filter). simplify_eq/=.
    split; [done|]. exists i', j'. by rewrite <-elem_of_neighbours.
  - intros (-> & i' & j' & Hin & Ha & ->). exists (i', j'). split; [done|].
    apply list_elem_of_filter. by rewrite elem_of_neighbours.
Qed.

Lemma NoDup_cell_links i j : in_bounds img i j → NoDup (cell_links img i j).
Proof.
  intros Hc. rewrite cell_links_neighbours by done.
  apply NoDup_fmap_2_strong; [|apply NoDup_filter, NoDup_neighbours].
  intros [i1 j1] [i2 j2] [H1 _]%list_elem_of_filter [H2 _]%list_elem_of_filter Heq.
  simplify_eq/=. destruct (vertid_inj img rows_size cols_size image_size
    i1 j1 i2 j2) as [-> ->]; done.
Qed.

Lemma elem_of_lattice_links s t :
  (s, t) ∈ lattice_links img ↔
  ∃ i j, in_bounds img i j ∧ (s, t) ∈ cell_links img i j.
Proof.
  unfold lattice_links. rewrite list_elem_of_bind. split.
  - intros (i & (j & Hl & Hj%elem_of_seqZ)%list_elem_of_bind & Hi%elem_of_seqZ).
    exists i, j. unfold in_bounds. split; [lia|done].
  - intros (i & j & [Hi Hj] & Hl). exists i. rewrite elem_of_seqZ.
    split; [|lia]. apply list_elem_of_bind. exists j. rewrite elem_of_seqZ.
    split; [done|lia].
Qed.

(** Every link runs between two adjacent cells of the image, and every
    such pair is a link. *)
Lemma elem_of_lattice_links_adjacent s t :
  (s, t) ∈ lattice_links img ↔
  ∃ i j i' j', in_bounds img i j ∧ in_bounds img i' j' ∧ adjacent i j i' j' ∧
               s = vertid img i j ∧ t = vertid img i' j'.
Proof.
  rewrite elem_of_lattice_links. split.
  - intros (i & j & Hc & Hl). apply elem_of_cell_links in Hl as (-> & i' & j' & ?); [|done].
    exists i, j, i', j'. tauto.
  - intros (i & j & i' & j' & Hc & Hc' & Ha & -> & ->). exists i, j.
    split; [done|]. apply elem_of_cell_links; [done|]. naive_solver.
Qed.

Lemma lattice_links_sym s t :
  (s, t) ∈ lattice_links img → (t, s) ∈ lattice_links img.
Proof.
  rewrite !elem_of_lattice_links_adjacent.
  intros (i & j & i' & j' & Hc & Hc' & Ha & -> & ->).
  exists i', j', i, j. split_and!; [done..|by apply adjacent_sym|done|done].
Qed.

Lemma lattice_links_irrefl s : (s, s) ∉ lattice_links img.
Proof.
  rewrite elem_of_lattice_links_adjacent.
  intros (i & j & i' & j' & Hc & Hc' & Ha & -> & Heq).
  apply (vertid_inj img rows_size cols_size image_size) in Heq as [-> ->]; [|done..].
  by apply adjacent_ne in Ha.
Qed.

Lemma NoDup_lattice_links : NoDup (lattice_links img).
Proof.
  unfold lattice_links. apply NoDup_bind; [| |apply NoDup_seqZ].
  - intros i1 i2 [s t] Hi1%elem_of_seqZ Hi2%elem_of_seqZ.
    intros (j1 & Hl1 & Hj1%elem_of_seqZ)%list_elem_of_bind.
    intros (j2 & Hl2 & Hj2%elem_of_seqZ)%list_elem_of_bind.
    apply elem_of_cell_links in Hl1 as [-> _]; [|unfold in_bounds; lia].
    apply elem_of_cell_links in Hl2 as [Heq _]; [|unfold in_bounds; lia].
    apply (vertid_inj img rows_size cols_size image_size) in Heq as [-> _];
      unfold in_bounds; [done|lia..].
  - intros i Hi%elem_of_seqZ. apply NoDup_bind; [| |apply NoDup_seqZ].
    + intros j1 j2 [s t] Hj1%elem_of_seqZ Hj2%elem_of_seqZ Hl1 Hl2.
      apply elem_of_cell_links in Hl1 as [-> _]; [|unfold in_bounds; lia].
      apply elem_of_cell_links in Hl2 as [Heq _]; [|unfold in_bounds; lia].
      apply (vertid_inj img rows_size cols_size image_size) in Heq as [_ ->];
        unfold in_bounds; [done|lia..].
    + intros j Hj%elem_of_seqZ. apply NoDup_cell_links. unfold in_bounds. lia.
Qed.

(** Both ends of a link are vertices. *)
Lemma lattice_links_range s t :
  (s, t) ∈ lattice_links img →
  0 ≤ s < rows img * cols img ∧ 0 ≤ t < rows img * cols img.
Proof.
  rewrite elem_of_lattice_links_adjacent.
  intros (i & j & i' & j' & Hc & Hc' & _ & -> & ->).
  rewrite !vertid_in_bounds by done. split; by apply cell_index_bound.
Qed.
End Links.

(** ** The edge loop of construct_graph *)

Lemma seqZ_snoc n : 0 ≤ n → seqZ 0 (n + 1) = seqZ 0 n ++ [n].
Proof.
  intros Hn. rewrite seqZ_app by lia. f_equal.
Qed.

Section EdgeLoop.
Context {D BF : Type} {ops : FactorOps D BF} (img : image D) (num_rings : Z).
Hypothesis rows_size : 0 ≤ rows img < size_mod.
Hypothesis cols_size : 0 ≤ cols img < size_mod.

Lemma link_added g0 links vid ni nj st :
  edges_added num_rings g0 links st →
  edges_added num_rings g0 (links ++ [(vid, vertid img ni nj)])
              (link img vid ni nj st).
Proof.
  destruct st as [edata g]. intros (Hv & Hf & He & Hd & Hm & Ho).
  unfold edges_added, link, add_edge, fresh_edge, set_var in *. simpl in *.
  rewrite Hv, Hf, He, Hd, Hm, Ho, fmap_app, <-!(assoc_L (++)). done.
Qed.

Lemma add_pixel_edges_added g0 links i j st :
  edges_added num_rings g0 links st →
  edges_added num_rings g0 (links ++ cell_links img i j)
              (add_pixel_edges img i j st).
Proof.
  intros Hst. unfold add_pixel_edges, cell_links.
  rewrite !(assoc_L (++)).
  repeat match goal with
  | |- context [if ?b then _ else _] =>
      destruct b; [apply link_added|rewrite (right_id_L [] (++))]
  end; done.
Qed.

Lemma add_edges_added g :
  edges_added num_rings g (lattice_links img) (add_edges img num_rings g).
Proof.
  unfold add_edges, lattice_links.
  set (row i := seqZ 0 (cols img) ≫= cell_links img i).
  apply (for_size_invariant _
           (λ i, edges_added num_rings g (seqZ 0 i ≫= row))); [lia| |].
  - change (seqZ 0 0 ≫= row) with (@nil (Z * Z)).
    unfold edges_added, initial_edata, uniform_factor. simpl.
    by rewrite !(right_id_L [] (++)).
  - intros i st Hi Hst. rewrite seqZ_snoc, bind_app, bind_singleton by lia.
    unfold row at 2.
    apply (for_size_invariant _
      (λ j, edges_added num_rings g
              ((seqZ 0 i ≫= row) ++ (seqZ 0 j ≫= cell_links img i))));
      [lia| |].
    + change (seqZ 0 0 ≫= cell_links img i) with (@nil (Z * Z)).
      by rewrite (right_id_L [] (++)).
    + intros j st' Hj Hst'.
      rewrite seqZ_snoc, bind_app, bind_singleton, (assoc_L (++)) by lia.
      by apply add_pixel_edges_added.
Qed.
End EdgeLoop.

(** ** The vertex loop of construct_graph *)

Section VertexLoop.
Context {D BF : Type} {ops : FactorOps D BF} (img : image D) (num_rings : Z)
        (sigma : D).
Hypothesis rows_size : 0 ≤ rows img < size_mod.
Hypothesis cols_size : 0 ≤ cols img < size_mod.
Hypothesis image_size : rows img * cols img < size_mod.

Variable Q : vertex_data D → Prop.
Variable R : Z → Z → vertex_data D → Prop.
Hypothesis Q_initial : Q (initial_vdata num_rings).
Hypothesis Q_step : ∀ i j vdata,
  in_bounds img i j → Q vdata →
  Q (pixel_step img num_rings (d_mul sigma sigma) i j vdata) ∧
  R i j (pixel_step img num_rings (d_mul sigma sigma) i j vdata).

Lemma add_pixel_vertex_added i j st :
  in_bounds img i j →
  vertices_added img Q R (i * cols img + j) st →
  ∃ st', add_pixel_vertex img num_rings (d_mul sigma sigma) i j st = Some st'
         ∧ vertices_added img Q R (i * cols img + j + 1) st'.
Proof.
  destruct st as [vdata g]. intros Hc (HQ & He & Hd & Hf & Hn & Hl).
  simpl in *. destruct (Q_step i j vdata Hc HQ) as [HQ' HR].
  eexists. split.
  - unfold add_pixel_vertex, add_vertex.
    fold (pixel_step img num_rings (d_mul sigma sigma) i j vdata).
    rewrite decide_True; [done|].
    by rewrite Hn, vertid_in_bounds.
  - unfold vertices_added, num_vertices in *. simpl.
    split_and!; [done..| |].
    + rewrite length_app. simpl. lia.
    + intros i' j' Hc' Hlt.
      destruct (decide (i' * cols img + j' < i * cols img + j)) as [Hold|Hnew].
      * destruct (Hl i' j' Hc' Hold) as (d & Hd' & HR').
        exists d. split; [|done]. rewrite lookup_app_l; [done|].
        by apply lookup_lt_Some in Hd'.
      * assert (i' * cols img + j' = i * cols img + j) as Heq by lia.
        apply cell_index_inj in Heq as [-> ->]; [|done..].
        eexists. split; [|exact HR].
        replace (Z.to_nat (i * cols img + j)) with (length (vertices g)) by lia.
        apply list_lookup_middle. done.
Qed.

Lemma add_vertices_added :
  ∃ st, add_vertices img num_rings sigma empty_graph = Some st
        ∧ vertices_added img Q R (rows img * cols img) st.
Proof.
  unfold add_vertices.
  apply (for_size_opt_invariant _
           (λ i, vertices_added img Q R (i * cols img))); [lia| |].
  - unfold vertices_added, num_vertices. simpl. split_and!; [done..|].
    intros i j [??] ?. nia.
  - intros i st Hi Hst.
    replace ((i + 1) * cols img) with (i * cols img + cols img) by lia.
    apply (for_size_opt_invariant _
             (λ j, vertices_added img Q R (i * cols img + j))); [lia| |].
    + by rewrite Z.add_0_r.
    + intros j st' Hj Hst'. rewrite Z.add_assoc.
      apply add_pixel_vertex_added; [|done]. unfold in_bounds. lia.
Qed.

(** The graph that [construct_graph] returns on the empty graph. *)
Lemma construct_graph_run :
  ∃ g, construct_graph img num_rings sigma empty_graph = Some g
       ∧ ends g = lattice_links img
       ∧ edges g = (λ l, fresh_edge num_rings l.2) <$> lattice_links img
       ∧ finalized g = true
       ∧ num_vertices g = rows img * cols img
       ∧ ∀ i j, in_bounds img i j →
           ∃ d, vertices g !! Z.to_nat (vertid img i j) = Some d ∧ R i j d.
Proof.
  destruct add_vertices_added as ([vdata g1] & Hrun & _ & He & Hd & _ & Hn & Hl).
  pose proof (add_edges_added img num_rings rows_size cols_size g1) as Hadd.
  unfold construct_graph. rewrite Hrun. simpl in *.
  destruct (add_edges img num_rings g1) as [edata g2].
  destruct Hadd as (Hv2 & _ & He2 & Hd2 & _). simpl in *.
  eexists. split; [done|]. unfold num_vertices in *. simpl.
  rewrite He2, Hd2, Hv2, He, Hd. split_and!; [done..|].
  intros i j Hc. rewrite vertid_in_bounds by done. apply Hl; [done|].
  by apply cell_index_bound.
Qed.
End VertexLoop.

(** ** In-edges and out-edges of a vertex *)

Section GraphFacts.
Context {D : Type} (g : graph D).
Implicit Types (v s t : Z) (e : nat).

Lemma ends_lookup e s t :
  ends g !! e = Some (s, t) → source g e = s ∧ target g e = t.
Proof.
  intros He. unfold source, target.
  by rewrite (list_lookup_total_correct _ _ _ He).
Qed.

Lemma ends_lookup_total e :
  (e < length (ends g))%nat → ends g !! e = Some (source g e, target g e).
Proof.
  intros [[s t] He]%lookup_lt_is_Some.
  by destruct (ends_lookup e s t He) as [-> ->].
Qed.

Lemma in_edge_ids_perm v : in_edge_ids g v ≡ₚ edges_into g v.
Proof.
  unfold in_edge_ids. destruct (finalized g); [|done].
  apply merge_sort_Permutation.
Qed.

Lemma out_edge_ids_perm v : out_edge_ids g v ≡ₚ edges_from g v.
Proof.
  unfold out_edge_ids. destruct (finalized g); [|done].
  apply merge_sort_Permutation.
Qed.

Lemma elem_of_in_edge_ids v e :
  e ∈ in_edge_ids g v ↔ (e < length (ends g))%nat ∧ target g e = v.
Proof.
  rewrite in_edge_ids_perm. unfold edges_into.
  rewrite list_elem_of_filter, elem_of_seq. lia.
Qed.

Lemma elem_of_out_edge_ids v e :
  e ∈ out_edge_ids g v ↔ (e < length (ends g))%nat ∧ source g e = v.
Proof.
  rewrite out_edge_ids_perm. unfold edges_from.
  rewrite list_elem_of_filter, elem_of_seq. lia.
Qed.

Lemma NoDup_in_edge_ids v : NoDup (in_edge_ids g v).
Proof.
  rewrite in_edge_ids_perm. apply NoDup_filter, NoDup_seq.
Qed.

Lemma NoDup_out_edge_ids v : NoDup (out_edge_ids g v).
Proof.
  rewrite out_edge_ids_perm. apply NoDup_filter, NoDup_seq.
Qed.

Lemma elem_of_in_sources v s :
  s ∈ source g <$> in_edge_ids g v ↔ (s, v) ∈ ends g.
Proof.
  rewrite list_elem_of_fmap. setoid_rewrite elem_of_in_edge_ids. split.
  - intros (e & -> & He & <-). apply list_elem_of_lookup. exists e.
    by apply ends_lookup_total.
  - intros (e & He)%list_elem_of_lookup. exists e.
    destruct (ends_lookup e s v He) as [-> ->].
    split_and!; [done| |done]. by apply lookup_lt_Some in He.
Qed.

Lemma elem_of_out_targets v t :
  t ∈ target g <$> out_edge_ids g v ↔ (v, t) ∈ ends g.
Proof.
  rewrite list_elem_of_fmap. setoid_rewrite elem_of_out_edge_ids. split.
  - intros (e & -> & He & <-). apply list_elem_of_lookup. exists e.
    by apply ends_lookup_total.
  - intros (e & He)%list_elem_of_lookup. exists e.
    destruct (ends_lookup e v t He) as [-> ->].
    split_and!; [done| |done]. by apply lookup_lt_Some in He.
Qed.

(** Two edges with the same ends are one edge, when no link is stored
    twice. *)
Lemma edge_unique e1 e2 :
  NoDup (ends g) →
  (e1 < length (ends g))%nat → (e2 < length (ends g))%nat →
  source g e1 = source g e2 → target g e1 = target g e2 → e1 = e2.
Proof.
  intros Hnd H1%ends_lookup_total H2%ends_lookup_total Hs Ht.
  rewrite Hs, Ht in H1. by eapply NoDup_lookup.
Qed.

Lemma NoDup_in_sources v :
  NoDup (ends g) → NoDup (source g <$> in_edge_ids g v).
Proof.
  intros Hnd. apply NoDup_fmap_2_strong; [|apply NoDup_in_edge_ids].
  intros e1 e2 [? Ht1]%elem_of_in_edge_ids [? Ht2]%elem_of_in_edge_ids Hs.
  apply edge_unique; congruence.
Qed.

Lemma NoDup_out_targets v :
  NoDup (ends g) → NoDup (target g <$> out_edge_ids g v).
Proof.
  intros Hnd. apply NoDup_fmap_2_strong; [|apply NoDup_out_edge_ids].
  intros e1 e2 [? Hs1]%elem_of_out_edge_ids [? Hs2]%elem_of_out_edge_ids Ht.
  apply edge_unique; congruence.
Qed.

#[local] Instance by_source_total : Total (by_source g).
Proof. intros e1 e2. unfold by_source. lia. Qed.
#[local] Instance by_target_total : Total (by_target g).
Proof. intros e1 e2. unfold by_target. lia. Qed.

Lemma Sorted_in_sources v :
  finalized g = true → Sorted Z.le (source g <$> in_edge_ids g v).
Proof.
  intros Hf. unfold in_edge_ids. rewrite Hf.
  apply (Sorted_fmap _ (by_source g)); [done|].
  apply (Sorted_merge_sort (by_source g)).
Qed.

Lemma Sorted_out_targets v :
  finalized g = true → Sorted Z.le (target g <$> out_edge_ids g v).
Proof.
  intros Hf. unfold out_edge_ids. rewrite Hf.
  apply (Sorted_fmap _ (by_target g)); [done|].
  apply (Sorted_merge_sort (by_target g)).
Qed.

(** In a finalized graph whose links are stored once and in both
    directions, the out-edges and the in-edges of a vertex are paired by
    position. *)
Lemma finalized_paired v :
  finalized g = true → NoDup (ends g) →
  (∀ s t, (s, t) ∈ ends g → (t, s) ∈ ends g) →
  target g <$> out_edge_ids g v = source g <$> in_edge_ids g v.
Proof.
  intros Hf Hnd Hsym. apply (Sorted_unique Z.le).
  - by apply Sorted_out_targets.
  - by apply Sorted_in_sources.
  - apply NoDup_Permutation.
    + by apply NoDup_out_targets.
    + by apply NoDup_in_sources.
    + intros u. rewrite elem_of_out_targets, elem_of_in_sources.
      split; apply Hsym.
Qed.
End GraphFacts.

(** ** The lattice graph *)

Section LatticeGraph.
Context {D BF : Type} {ops : FactorOps D BF} (img : image D) (num_rings : Z)
        (sigma : D).
Hypothesis rows_size : 0 ≤ rows img < size_mod.
Hypothesis cols_size : 0 ≤ cols img < size_mod.

Lemma link_ends vid ni nj (st : edge_data D * graph D) :
  ends (link img vid ni nj st).2 = ends st.2 ++ [(vid, vertid img ni nj)].
Proof. by destruct st. Qed.

Lemma add_pixel_edges_ends i j (st : edge_data D * graph D) :
  ends (add_pixel_edges img i j st).2 = ends st.2 ++ cell_links img i j.
Proof.
  unfold add_pixel_edges, cell_links. rewrite !(assoc_L (++)).
  repeat match goal with
  | |- context [if ?b then _ else _] =>
      destruct b; [rewrite link_ends|rewrite (right_id_L [] (++))]
  end; done.
Qed.

Hypothesis image_size : rows img * cols img < size_mod.

(** [construct_graph] returns, and the ends and the data of the edges of
    its graph are those of the links of the lattice. *)
Lemma construct_graph_links :
  ∃ g, construct_graph img num_rings sigma empty_graph = Some g
       ∧ ends g = lattice_links img
       ∧ edges g = (λ l, fresh_edge num_rings l.2) <$> lattice_links img
       ∧ finalized g = true
       ∧ num_vertices g = rows img * cols img.
Proof.
  destruct (construct_graph_run img num_rings sigma rows_size cols_size
              image_size (λ _, True) (λ _ _ _, True))
    as (g & ? & ? & ? & ? & ? & _); [done..|].
  by exists g.
Qed.

Lemma links_from_cell i j t :
  in_bounds img i j →
  (vertid img i j, t) ∈ lattice_links img ↔
  (vertid img i j, t) ∈ cell_links img i j.
Proof.
  intros Hc. rewrite elem_of_lattice_links. split; [|by exists i, j].
  intros (i' & j' & Hc' & Hl).
  pose proof Hl as Hl'. apply elem_of_cell_links in Hl' as [Heq _]; [|done..].
  apply vertid_inj in Heq as [-> ->]; done.
Qed.

Lemma out_degree (g : graph D) i j :
  ends g = lattice_links img → in_bounds img i j →
  length (out_edge_ids g (vertid img i j))
  = length (filter (in_image img) (neighbours i j)).
Proof.
  intros He Hc.
  rewrite <-(length_fmap (target g)),
    <-(length_fmap (λ c, (vertid img i j, vertid img c.1 c.2))),
    <-cell_links_neighbours, <-(length_fmap snd) by done.
  apply Permutation_length, NoDup_Permutation.
  - apply NoDup_out_targets. rewrite He. by apply NoDup_lattice_links.
  - apply NoDup_fmap_2_strong; [|by apply NoDup_cell_links].
    intros [s1 t1] [s2 t2] [-> _]%elem_of_cell_links [-> _]%elem_of_cell_links;
      [|done..].
    simpl. by intros ->.
  - intros t. rewrite elem_of_out_targets, He, links_from_cell by done.
    rewrite list_elem_of_fmap. split.
    + intros Hl. by exists (vertid img i j, t).
    + intros ([s t'] & -> & Hl). simpl.
      pose proof Hl as [-> _]%elem_of_cell_links; done.
Qed.

Lemma neighbours_count i j :
  (length (filter (in_image img) (neighbours i j)) ≤ 4)%nat ∧
  (in_bounds img i j → on_boundary img i j →
   (length (filter (in_image img) (neighbours i j)) < 4)%nat) ∧
  (in_bounds img i j → ¬ on_boundary img i j →
   length (filter (in_image img) (neighbours i j)) = 4%nat).
Proof.
  unfold neighbours, on_boundary. rewrite !filter_cons, filter_nil.
  unfold in_image, in_bounds. simpl.
  repeat case_decide; simpl; split_and!; lia.
Qed.
End LatticeGraph.

(** ** The bounds tests of the edge loop *)

(** C10.  On a grid of any [size_t] dimensions the four tests of
    [add_pixel_edges], evaluated with the wrap-around of [size_t], hold
    exactly for the neighbours that are cells of the image; at index 0 the
    wrapped predecessor is never below the dimension.  The edges the body
    adds are those to these neighbours, and every edge of the constructed
    graph has both ends among the vertices. *)
Theorem neighbour_tests_in_bounds {D BF : Type} {ops : FactorOps D BF}
    (img : image D) (num_rings : Z) (sigma : D) :
  0 ≤ rows img < size_mod → 0 ≤ cols img < size_mod →
  (∀ i j, in_bounds img i j →
     ((wrap (i - 1) <? rows img) = true ↔ in_bounds img (i - 1) j) ∧
     ((wrap (i + 1) <? rows img) = true ↔ in_bounds img (i + 1) j) ∧
     ((wrap (j - 1) <? cols img) = true ↔ in_bounds img i (j - 1)) ∧
     ((wrap (j + 1) <? cols img) = true ↔ in_bounds img i (j + 1))) ∧
  (wrap (0 - 1) <? rows img) = false ∧
  (wrap (0 - 1) <? cols img) = false ∧
  (∀ i j st, in_bounds img i j →
     ends (add_pixel_edges img i j st).2
     = ends st.2 ++ ((λ c, (vertid img i j, vertid img c.1 c.2))
                       <$> filter (in_image img) (neighbours i j))) ∧
  (rows img * cols img < size_mod →
   ∃ g, construct_graph img num_rings sigma empty_graph = Some g ∧
        ∀ s t, (s, t) ∈ ends g →
               0 ≤ s < num_vertices g ∧ 0 ≤ t < num_vertices g).
Proof.
  intros Hr Hc. split_and!.
  - intros i j [Hi Hj]. unfold in_bounds.
    rewrite !test_pred, !test_succ by done. lia.
  - rewrite wrap_minus_one. apply Z.ltb_ge. lia.
  - rewrite wrap_minus_one. apply Z.ltb_ge. lia.
  - intros i j st Hin. rewrite add_pixel_edges_ends.
    by rewrite cell_links_neighbours.
  - intros Hsize.
    destruct (construct_graph_links img num_rings sigma Hr Hc Hsize)
      as (g & Hg & He & _ & _ & Hn).
    exists g. split; [done|]. intros s t. rewrite He, Hn.
    by apply lattice_links_range.
Qed.

Lemma neighbour_tests_in_bounds_witness :
  (0 ≤ rows MaxPlus.img22 < size_mod ∧ 0 ≤ cols MaxPlus.img22 < size_mod) ∧
  (wrap (0 - 1) <? rows MaxPlus.img22) = false ∧
  ∃ g, construct_graph MaxPlus.img22 3 1%Q empty_graph = Some g ∧
       ∀ s t, (s, t) ∈ ends g →
              0 ≤ s < num_vertices g ∧ 0 ≤ t < num_vertices g.
Proof.
  assert (0 ≤ rows MaxPlus.img22 < size_mod) as Hr by (vm_compute; intuition discriminate).
  assert (0 ≤ cols MaxPlus.img22 < size_mod) as Hc by (vm_compute; intuition discriminate).
  split; [done|].
  destruct (neighbour_tests_in_bounds MaxPlus.img22 3 1%Q Hr Hc)
    as (_ & H0 & _ & _ & Hg).
  split; [exact H0|]. apply Hg. reflexivity.
Defined.

(** ** The edges of the lattice graph *)

(** C7.  The edges of the constructed graph run from every cell to each of
    its axis-aligned neighbours inside the image and nowhere else; no
    (source, target) pair is stored twice, so a link of the lattice is two
    edge records, one per direction.  Every edge carries the uniform,
    normalized factor as message and as old message.  A cell has one
    out-edge per neighbour inside the image: at most 4, and fewer than 4 on
    the boundary. *)
Theorem lattice_edges {D BF : Type} {ops : FactorOps D BF}
    (img : image D) (num_rings : Z) (sigma : D) :
  0 ≤ rows img < size_mod → 0 ≤ cols img < size_mod →
  rows img * cols img < size_mod →
  ∃ g, construct_graph img num_rings sigma empty_graph = Some g ∧
    (∀ s t, (s, t) ∈ ends g ↔
       ∃ i j i' j', in_bounds img i j ∧ in_bounds img i' j' ∧
                    adjacent i j i' j' ∧
                    s = vertid img i j ∧ t = vertid img i' j') ∧
    NoDup (ends g) ∧
    length (edges g) = length (ends g) ∧
    (∀ e, (e < length (ends g))%nat →
       message (get_edge g e) = set_var (uniform_factor num_rings) (target g e) ∧
       old_message (get_edge g e) = message (get_edge g e)) ∧
    (∀ i j, in_bounds img i j →
       length (out_edge_ids g (vertid img i j))
       = length (filter (in_image img) (neighbours i j)) ∧
       (length (out_edge_ids g (vertid img i j)) ≤ 4)%nat ∧
       (on_boundary img i j →
        (length (out_edge_ids g (vertid img i j)) < 4)%nat)).
Proof.
  intros Hr Hc Hsize.
  destruct (construct_graph_links img num_rings sigma Hr Hc Hsize)
    as (g & Hg & He & Hd & _ & _).
  exists g. split; [done|]. split_and!.
  - intros s t. rewrite He. by apply elem_of_lattice_links_adjacent.
  - rewrite He. by apply NoDup_lattice_links.
  - by rewrite Hd, He, length_fmap.
  - intros e He'. pose proof (ends_lookup_total g e He') as Hl.
    assert (edges g !! e = Some (fresh_edge num_rings (target g e))) as Hd'.
    { by rewrite Hd, <-He, list_lookup_fmap, Hl. }
    unfold get_edge. by rewrite (list_lookup_total_correct _ _ _ Hd').
  - intros i j Hin. rewrite (out_degree img Hr Hc Hsize g i j He Hin).
    destruct (neighbours_count img i j) as (? & ? & _). auto.
Qed.

Lemma lattice_edges_witness :
  ∃ g, construct_graph MaxPlus.img22 3 1%Q empty_graph = Some g ∧
       NoDup (ends g) ∧ length (edges g) = length (ends g) ∧
       (length (out_edge_ids g (vertid MaxPlus.img22 0 0)) < 4)%nat.
Proof.
  assert (0 ≤ rows MaxPlus.img22 < size_mod) as Hr by (vm_compute; intuition discriminate).
  assert (0 ≤ cols MaxPlus.img22 < size_mod) as Hc by (vm_compute; intuition discriminate).
  assert (rows MaxPlus.img22 * cols MaxPlus.img22 < size_mod) as Hs by reflexivity.
  destruct (lattice_edges MaxPlus.img22 3 1%Q Hr Hc Hs)
    as (g & Hg & _ & Hnd & Hlen & _ & Hdeg).
  exists g. split_and!; [done..|].
  apply (Hdeg 0 0); [vm_compute; intuition discriminate|by left].
Defined.

(** ** Reverse edges *)

(** C5.  In the finalized lattice graph every edge has exactly one reverse
    edge, and at every vertex the in-edge list and the out-edge list have
    the same length, the i-th out-edge and the i-th in-edge being the
    reverse of each other: the reverse edge is found by position. *)
Theorem lattice_reverse_edges {D BF : Type} {ops : FactorOps D BF}
    (img : image D) (num_rings : Z) (sigma : D) :
  0 ≤ rows img < size_mod → 0 ≤ cols img < size_mod →
  rows img * cols img < size_mod →
  ∃ g, construct_graph img num_rings sigma empty_graph = Some g ∧
    finalized g = true ∧
    (∀ e, (e < length (ends g))%nat →
       exists! e', (e' < length (ends g))%nat ∧
              source g e' = target g e ∧ target g e' = source g e) ∧
    (∀ v, length (in_edge_ids g v) = length (out_edge_ids g v) ∧
          ∀ i outeid ineid,
            out_edge_ids g v !! i = Some outeid →
            in_edge_ids g v !! i = Some ineid →
            target g outeid = source g ineid ∧
            source g outeid = target g ineid).
Proof.
  intros Hr Hc Hsize.
  destruct (construct_graph_links img num_rings sigma Hr Hc Hsize)
    as (g & Hg & He & _ & Hf & _).
  assert (NoDup (ends g)) as Hnd by (rewrite He; by apply NoDup_lattice_links).
  assert (∀ s t, (s, t) ∈ ends g → (t, s) ∈ ends g) as Hsym
    by (rewrite He; by apply lattice_links_sym).
  exists g. split_and!; [done..| |].
  - intros e Hlt. pose proof (ends_lookup_total g e Hlt) as Hl.
    assert ((target g e, source g e) ∈ ends g) as (e' & He')%list_elem_of_lookup.
    { apply Hsym, list_elem_of_lookup. by exists e. }
    destruct (ends_lookup g e' _ _ He') as [Hs' Ht'].
    exists e'. split.
    + split_and!; [|done..]. by apply lookup_lt_Some in He'.
    + intros e'' (Hlt'' & Hs'' & Ht''). apply (edge_unique g); [done| |done|..].
      * by apply lookup_lt_Some in He'.
      * congruence.
      * congruence.
  - intros v. pose proof (finalized_paired g v Hf Hnd Hsym) as Hp. split.
    + by rewrite <-(length_fmap (source g)), <-Hp, length_fmap.
    + intros i outeid ineid Ho Hi. split.
      * assert ((target g <$> out_edge_ids g v) !! i
                = (source g <$> in_edge_ids g v) !! i) as Hi' by (by rewrite Hp).
        rewrite !list_lookup_fmap, Ho, Hi in Hi'. by simplify_eq/=.
      * apply list_elem_of_lookup_2 in Ho, Hi.
        apply elem_of_out_edge_ids in Ho as [_ ->].
        by apply elem_of_in_edge_ids in Hi as [_ ->].
Qed.

Lemma lattice_reverse_edges_witness :
  ∃ g, construct_graph MaxPlus.img22 3 1%Q empty_graph = Some g ∧
       finalized g = true ∧
       length (in_edge_ids g 0) = length (out_edge_ids g 0).
Proof.
  assert (0 ≤ rows MaxPlus.img22 < size_mod) as Hr by (vm_compute; intuition discriminate).
  assert (0 ≤ cols MaxPlus.img22 < size_mod) as Hc by (vm_compute; intuition discriminate).
  assert (rows MaxPlus.img22 * cols MaxPlus.img22 < size_mod) as Hs by reflexivity.
  destruct (lattice_reverse_edges MaxPlus.img22 3 1%Q Hr Hc Hs)
    as (g & Hg & Hf & _ & Hv).
  exists g. split_and!; [done..|]. apply Hv.
Defined.

(** ** The vertices of the lattice graph *)

Section VertexData.
Context {D BF : Type} {ops : FactorOps D BF} {laws : FactorLaws}.

Lemma potential_entry_gaussian (obs sigma : D) (k : Z) :
  potential_entry obs (d_mul sigma sigma) k = gaussian_log_weight obs sigma k.
Proof. unfold potential_entry, gaussian_log_weight. by rewrite neg_mul. Qed.

(** The loop of lines 421-424 overwrites every log-weight. *)
Lemma fill_logP (phi : Z → D) (num_rings : Z) (f : unary_factor D) :
  0 ≤ num_rings → arity f = num_rings →
  for_size num_rings (λ pred p, set_logP p pred (phi pred)) f
  = mk_unary (var f) (phi <$> seqZ 0 num_rings).
Proof.
  intros HK Har.
  assert (for_size num_rings (λ pred p, set_logP p pred (phi pred)) f
          = mk_unary (var f) ((phi <$> seqZ 0 num_rings)
                              ++ drop (Z.to_nat num_rings) (logP f))) as ->.
  { apply (for_size_invariant _
      (λ k p, p = mk_unary (var f) ((phi <$> seqZ 0 k)
                                    ++ drop (Z.to_nat k) (logP f)))); [done| |].
    - by destruct f.
    - intros k p Hk ->. unfold set_logP. simpl. f_equal.
      assert (is_Some (logP f !! Z.to_nat k)) as [y Hy].
      { apply lookup_lt_is_Some. unfold arity in Har. lia. }
      rewrite insert_app_r_alt; rewrite length_fmap, length_seqZ; [|lia].
      replace (Z.to_nat k - Z.to_nat k)%nat with 0%nat by lia.
      rewrite (drop_S _ _ _ Hy). simpl.
      rewrite seqZ_snoc, fmap_app, <-(assoc_L (++)) by lia. simpl.
      by replace (Z.to_nat (k + 1)) with (S (Z.to_nat k)) by lia. }
  rewrite drop_ge, (right_id_L [] (++)); [done|]. unfold arity in Har. lia.
Qed.

Lemma arity_uniform_factor (num_rings : Z) :
  0 ≤ num_rings → arity (uniform_factor (D:=D) num_rings) = num_rings.
Proof.
  intros. unfold uniform_factor.
  by rewrite arity_normalize, arity_uniform, arity_resize.
Qed.

(** What the vertex loop keeps of its blob from one cell to the next. *)
Lemma pixel_step_vertex (img : image D) (num_rings : Z) (sigma : D) i j vdata :
  0 ≤ num_rings →
  arity (potential vdata) = num_rings →
  logP (belief vdata) = logP (uniform_factor num_rings) →
  pixel_step img num_rings (d_mul sigma sigma) i j vdata
  = pixel_vertex img num_rings sigma i j.
Proof.
  intros HK Har Hbel. unfold pixel_step, pixel_vertex.
  rewrite fill_logP by done. unfold set_var. simpl. rewrite Hbel.
  do 3 f_equal. apply list_fmap_ext. intros _ k _.
  apply potential_entry_gaussian.
Qed.
End VertexData.

(** C6.  The vertex of every cell [(i, j)] of the image holds as potential
    the normalized factor whose log-weight at each state [k] below
    [num_rings] is [-(obs - k)^2 / (2 sigma^2)], [obs] being the pixel of
    the cell, and as belief the uniform (normalized) factor. *)
Theorem lattice_vertices {D BF : Type} {ops : FactorOps D BF} {laws : FactorLaws}
    (img : image D) (num_rings : Z) (sigma : D) :
  0 ≤ rows img < size_mod → 0 ≤ cols img < size_mod →
  rows img * cols img < size_mod → 0 ≤ num_rings →
  ∃ g, construct_graph img num_rings sigma empty_graph = Some g ∧
    num_vertices g = rows img * cols img ∧
    ∀ i j, in_bounds img i j →
      ∃ d, vertices g !! Z.to_nat (vertid img i j) = Some d ∧
        potential d
        = normalize (mk_unary (vertid img i j mod uint32_mod)
            ((λ k, gaussian_log_weight (pixel img i j) sigma k)
               <$> seqZ 0 num_rings)) ∧
        belief d
        = set_var (normalize (uniform (resize empty_factor num_rings)))
                  (vertid img i j mod uint32_mod).
Proof.
  intros Hr Hc Hsize HK.
  destruct (construct_graph_run img num_rings sigma Hr Hc Hsize
    (λ vdata, arity (potential vdata) = num_rings ∧
              logP (belief vdata) = logP (uniform_factor num_rings))
    (λ i j d, d = pixel_vertex img num_rings sigma i j))
    as (g & Hg & _ & _ & _ & Hn & Hv).
  - split; [|done]. by apply arity_uniform_factor.
  - intros i j vdata Hin [Har Hbel].
    rewrite pixel_step_vertex by done. split; [|done]. split; [|done].
    unfold pixel_vertex. simpl.
    rewrite arity_normalize. unfold arity. simpl.
    rewrite length_fmap, length_seqZ. lia.
  - exists g. split_and!; [done..|]. intros i j Hin.
    destruct (Hv i j Hin) as (d & Hd & ->). by exists (pixel_vertex img num_rings sigma i j).
Qed.

(** The executable instance has the laws. *)
Lemma max_plus_laws : FactorLaws (ops := MaxPlus.ops).
Proof.
  split.
  - intros f k Hk. unfold arity. simpl. rewrite length_replicate. lia.
  - intros f. unfold arity. simpl. by rewrite length_replicate.
  - intros f. unfold arity. simpl. by rewrite length_fmap.
  - intros a b. simpl. apply Qred_complete. rewrite !Qred_correct. ring.
Qed.

Lemma lattice_vertices_witness :
  ∃ g, construct_graph MaxPlus.img12 3 1%Q empty_graph = Some g ∧
       num_vertices g = 2 ∧
       ∃ d, vertices g !! 1%nat = Some d ∧
            potential d = mk_unary 1 [(-2)%Q; (-1 # 2)%Q; 0%Q] ∧
            belief d = mk_unary 1 [0%Q; 0%Q; 0%Q].
Proof.
  assert (0 ≤ rows MaxPlus.img12 < size_mod) as Hr by (vm_compute; intuition discriminate).
  assert (0 ≤ cols MaxPlus.img12 < size_mod) as Hc by (vm_compute; intuition discriminate).
  assert (rows MaxPlus.img12 * cols MaxPlus.img12 < size_mod) as Hs by reflexivity.
  assert (0 ≤ 3) as HK by (vm_compute; discriminate).
  destruct (lattice_vertices (laws := max_plus_laws)
              MaxPlus.img12 3 1%Q Hr Hc Hs HK) as (g & Hg & Hn & Hv).
  exists g. split_and!; [done..|].
  destruct (Hv 0 1) as (d & Hd & Hp & Hb); [vm_compute; intuition discriminate|].
  exists d. split_and!; [exact Hd|..].
  - rewrite Hp. reflexivity.
  - rewrite Hb. reflexivity.
Defined.

(** ** The smoothing policy *)

(** Membership in an explicit list of events, decided by comparing
    constructors. *)
Ltac not_an_event :=
  let H := fresh in
  intros H;
  repeat (apply elem_of_cons in H as [H|H]; [discriminate H|]);
  by apply elem_of_nil in H.

(** C8.  With a smoothing other than "square" and "laplace", [main] prints
    the error as its last output and returns [EXIT_FAILURE]; it has not set
    the shared constants, added a task or started the engine.  With
    "square" the shared edge factor is the agreement factor and with
    "laplace" the laplace factor, both with parameter [lambda], and the
    engine is started. *)
Theorem smoothing_policy {D BF : Type} {ops : FactorOps D BF} (o : options D) :
  (opt_smoothing o ≠ "square"%string → opt_smoothing o ≠ "laplace"%string →
   select_edge_potential (opt_colors o) (opt_smoothing o) (opt_lambda o) = None ∧
   ∃ events, main true o = (events, EXIT_FAILURE) ∧
             last events = Some (Say "Invalid smoothing stype!"%string) ∧
             (StartEngine ∉ events) ∧ (AddTaskToAll ∉ events) ∧
             (∀ sh, SetConstants sh ∉ events)) ∧
  (opt_smoothing o = "square"%string →
   let edge_potential :=
     set_as_agreement (binary_factor 0 (opt_colors o) 0 (opt_colors o))
                      (opt_lambda o) in
   select_edge_potential (opt_colors o) (opt_smoothing o) (opt_lambda o)
   = Some edge_potential ∧
   SetConstants (mk_shared edge_potential (opt_bound o) (opt_damping o))
     ∈ (main true o).1 ∧
   StartEngine ∈ (main true o).1) ∧
  (opt_smoothing o = "laplace"%string →
   let edge_potential :=
     set_as_laplace (binary_factor 0 (opt_colors o) 0 (opt_colors o))
                    (opt_lambda o) in
   select_edge_potential (opt_colors o) (opt_smoothing o) (opt_lambda o)
   = Some edge_potential ∧
   SetConstants (mk_shared edge_potential (opt_bound o) (opt_damping o))
     ∈ (main true o).1 ∧
   StartEngine ∈ (main true o).1).
Proof.
  split_and!.
  - intros Hsq Hla.
    assert (select_edge_potential (opt_colors o) (opt_smoothing o)
              (opt_lambda o) = None) as Hsel.
    { unfold select_edge_potential. by rewrite !decide_False. }
    split; [done|]. unfold main. rewrite Hsel. simpl.
    eexists. split; [done|]. split_and!; [done|try not_an_event..].
    intros sh. not_an_event.
  - intros Hsq edge_potential.
    assert (select_edge_potential (opt_colors o) (opt_smoothing o)
              (opt_lambda o) = Some edge_potential) as Hsel.
    { unfold select_edge_potential. by rewrite decide_True. }
    split; [done|]. unfold main. rewrite Hsel. simpl.
    repeat case_decide; simpl; split;
      repeat (first [by apply list_elem_of_here | apply list_elem_of_further]).
  - intros Hla edge_potential.
    assert (select_edge_potential (opt_colors o) (opt_smoothing o)
              (opt_lambda o) = Some edge_potential) as Hsel.
    { unfold select_edge_potential. rewrite decide_False, decide_True; [done..|].
      by rewrite Hla. }
    split; [done|]. unfold main. rewrite Hsel. simpl.
    repeat case_decide; simpl; split;
      repeat (first [by apply list_elem_of_here | apply list_elem_of_further]).
Qed.

Lemma smoothing_policy_witness :
  (opt_smoothing MaxPlus.gaussian_options ≠ "square"%string ∧
   opt_smoothing MaxPlus.gaussian_options ≠ "laplace"%string) ∧
  ∃ events,
    main (BF := MaxPlus.table) true MaxPlus.gaussian_options
    = (events, EXIT_FAILURE) ∧
    StartEngine ∉ events.
Proof.
  assert (opt_smoothing MaxPlus.gaussian_options ≠ "square"%string) as Hsq
    by (vm_compute; discriminate).
  assert (opt_smoothing MaxPlus.gaussian_options ≠ "laplace"%string) as Hla
    by (vm_compute; discriminate).
  split; [done|].
  destruct (smoothing_policy (BF := MaxPlus.table) MaxPlus.gaussian_options)
    as [Hfail _].
  destruct (Hfail Hsq Hla) as (_ & events & Hmain & _ & Hstart & _).
  by exists events.
Defined.

(** ** The store *)

Section Store.
Context {D : Type}.
Implicit Types (g : graph D) (e : nat).

Lemma get_edge_put_edge g e d e' :
  get_edge (put_edge g e d) e'
  = if decide (e = e' ∧ (e < length (edges g))%nat) then d else get_edge g e'.
Proof. unfold get_edge, put_edge. simpl. apply list_lookup_total_insert. Qed.

Lemma get_edge_put_edge_eq g e d :
  (e < length (edges g))%nat → get_edge (put_edge g e d) e = d.
Proof. intros. rewrite get_edge_put_edge. by rewrite decide_True. Qed.

Lemma get_edge_put_edge_ne g e d e' :
  e ≠ e' → get_edge (put_edge g e d) e' = get_edge g e'.
Proof. intros. rewrite get_edge_put_edge. rewrite decide_False; tauto. Qed.

Lemma get_edge_outside g e :
  (length (edges g) ≤ e)%nat → get_edge g e = inhabitant.
Proof.
  intros. unfold get_edge. rewrite list_lookup_total_alt.
  by rewrite lookup_ge_None_2.
Qed.

Lemma get_vertex_put_vertex g v d :
  0 ≤ v < num_vertices g → get_vertex (put_vertex g v d) v = d.
Proof.
  intros Hv. unfold get_vertex, put_vertex, num_vertices in *. simpl.
  apply list_lookup_total_insert_eq. lia.
Qed.
End Store.

(** ** The phases of bp_update *)

Section Phases.
Context {D BF : Type} {ops : FactorOps D BF}.
Implicit Types (g : graph D) (e : nat) (v : Z).

(** One step of the flip. *)
Lemma flip_one g x e :
  let g' := put_edge g x (mk_edge_data (message (get_edge g x))
                                       (message (get_edge g x))) in
  message (get_edge g' e) = message (get_edge g e) ∧
  old_message (get_edge g' e)
  = if decide (e = x) then message (get_edge g e)
    else old_message (get_edge g e).
Proof.
  simpl. rewrite get_edge_put_edge.
  destruct (decide (x = e ∧ (x < length (edges g))%nat)) as [[-> Hlt]|Hn].
  - by rewrite decide_True.
  - destruct (decide (e = x)) as [->|]; [|done].
    rewrite get_edge_outside by lia. done.
Qed.

(** The flip copies the message of each in-edge into its old message and
    touches nothing else. *)
Lemma flip_messages_spec (in_edges : list nat) g :
  let g1 := flip_messages in_edges g in
  vertices g1 = vertices g ∧ ends g1 = ends g ∧
  finalized g1 = finalized g ∧ length (edges g1) = length (edges g) ∧
  ∀ e, message (get_edge g1 e) = message (get_edge g e) ∧
       old_message (get_edge g1 e)
       = if decide (e ∈ in_edges) then message (get_edge g e)
         else old_message (get_edge g e).
Proof.
  revert g. induction in_edges as [|x l IH]; intros g; simpl.
  - split_and!; [done..|]. intros e. by split.
  - unfold flip_messages, foreach in *. simpl.
    set (g' := put_edge g x _).
    destruct (IH g') as (Hv & He & Hf & Hl & Hd). simpl in *.
    rewrite Hv, He, Hf, Hl. split_and!; [done..| |].
    + unfold g', put_edge. simpl. by rewrite length_insert.
    + intros e. destruct (Hd e) as [Hm Ho].
      destruct (flip_one g x e) as [Hm' Ho']. fold g' in Hm', Ho'.
      rewrite Hm, Ho, Hm', Ho'. split; [done|].
      destruct (decide (e = x)) as [->|Hne].
      * rewrite (decide_True (P := x ∈ x :: l)) by apply list_elem_of_here.
        by case_decide.
      * destruct (decide (e ∈ l)) as [Hin|Hnin].
        -- by rewrite decide_True by (by apply list_elem_of_further).
        -- rewrite decide_False; [done|]. by intros [?|?]%elem_of_cons.
Qed.

(** The belief phase writes the belief of [v] only. *)
Lemma compute_belief_spec v (in_edges : list nat) g :
  let g2 := compute_belief v in_edges g in
  ends g2 = ends g ∧ edges g2 = edges g ∧ finalized g2 = finalized g ∧
  length (vertices g2) = length (vertices g) ∧
  (∀ n, n ≠ Z.to_nat v → vertices g2 !! n = vertices g !! n) ∧
  (0 ≤ v < num_vertices g →
   potential (get_vertex g2 v) = potential (get_vertex g v) ∧
   belief (get_vertex g2 v)
   = normalize (foldl (λ b e, times b (old_message (get_edge g e)))
                      (potential (get_vertex g v)) in_edges)).
Proof.
  unfold compute_belief, foreach. simpl. split_and!; [done..| | |].
  - by rewrite length_insert.
  - intros n Hn. by rewrite list_lookup_insert_ne.
  - intros Hv. by rewrite get_vertex_put_vertex.
Qed.
End Phases.

(** ** The loop over the paired edges *)

Section SendLoop.
Context {D BF : Type} {ops : FactorOps D BF}.
Implicit Types (g : graph D) (e : nat) (v : Z).

Lemma reported_snoc (sh : shared_data D BF) g0 g' (out_edges : list nat) k :
  reported sh g0 g' out_edges (S k)
  = reported sh g0 g' out_edges k
    ++ (let outeid := out_edges !!! k in
        let res := residual (message (get_edge g' outeid))
                            (old_message (get_edge g0 outeid)) in
        if d_gt res (bound sh) then [(target g0 outeid, res)] else []).
Proof. unfold reported. by rewrite seq_S, bind_app, bind_singleton. Qed.

(** The tasks and the scratch message depend on the messages of the
    out-edges already handled only. *)
Lemma reported_ext (sh : shared_data D BF) g0 g g' (out_edges : list nat) k :
  (∀ i, (i < k)%nat → message (get_edge g (out_edges !!! i))
                      = message (get_edge g' (out_edges !!! i))) →
  reported sh g0 g out_edges k = reported sh g0 g' out_edges k.
Proof.
  induction k as [|k IH]; intros Hext; [done|].
  rewrite !reported_snoc, IH by (intros; apply Hext; lia).
  simpl. by rewrite Hext by lia.
Qed.

Lemma scratch_at_ext g g' (out_edges : list nat) k i :
  (∀ i, (i < k)%nat → message (get_edge g (out_edges !!! i))
                      = message (get_edge g' (out_edges !!! i))) →
  (i ≤ k)%nat → scratch_at g out_edges i = scratch_at g' out_edges i.
Proof. intros Hext Hi. destruct i; [done|]. simpl. apply Hext. lia. Qed.

Lemma send_message_sent (sh : shared_data D BF) v
    (in_edges out_edges : list nat) g2 k st :
  NoDup out_edges →
  (∀ e, e ∈ out_edges → (e < length (edges g2))%nat) →
  (k < length out_edges)%nat →
  target g2 (out_edges !!! k) = source g2 (in_edges !!! k) →
  sent sh v in_edges out_edges g2 k st →
  ∃ st', send_message sh v in_edges out_edges (Z.of_nat k) st = Some st'
         ∧ sent sh v in_edges out_edges g2 (S k) st'.
Proof.
  intros Hnd Hvalid Hk Hpair. destruct st as [[g tmp] tasks].
  intros (Hv & He & Hf & Hl & Hold & Hmsg & Hsent & Htmp & Htasks).
  simpl in *. unfold send_message. rewrite Nat2Z.id.
  set (outeid := out_edges !!! k) in *. set (ineid := in_edges !!! k) in *.
  assert (out_edges !! k = Some outeid) as Hlk
    by (by apply list_lookup_lookup_total_lt).
  assert (target g outeid = source g ineid) as Hp
    by (unfold target, source; by rewrite He).
  assert ((outeid < length (edges g))%nat) as Hin.
  { rewrite Hl. apply Hvalid. by eapply list_elem_of_lookup_2. }
  assert (∀ i, (i < k)%nat → out_edges !!! i ≠ outeid) as Hfresh.
  { intros i Hi Heq.
    assert (out_edges !! i = Some outeid) as Hli
      by (rewrite <-Heq; apply list_lookup_lookup_total_lt; lia).
    pose proof (NoDup_lookup _ _ _ _ Hnd Hli Hlk). lia. }
  rewrite decide_True by done.
  set (tmp' := damp _ _ _).
  set (g' := put_edge g outeid _).
  assert (∀ i, (i < k)%nat → message (get_edge g (out_edges !!! i))
                             = message (get_edge g' (out_edges !!! i))) as Hkeep.
  { intros i Hi. unfold g'. rewrite get_edge_put_edge_ne; [done|].
    intros Heq. by apply (Hfresh i). }
  assert (message (get_edge g' outeid) = tmp') as Hnew.
  { unfold g'. by rewrite get_edge_put_edge_eq. }
  assert (tmp' = outgoing sh (belief (get_vertex g2 v))
                   (old_message (get_edge g2 ineid))
                   (message (get_edge g2 outeid))
                   (scratch_at g' out_edges k)) as Hout.
  { unfold tmp', outgoing, get_vertex.
    rewrite Hv, Hold, (Hmsg outeid Hfresh), Htmp.
    by rewrite (scratch_at_ext g g' out_edges k k Hkeep). }
  eexists. split; [done|]. unfold sent. simpl. fold g'.
  split_and!; [done..| | | | | |].
  - unfold g', put_edge. simpl. by rewrite length_insert.
  - intros e. unfold g'. rewrite get_edge_put_edge.
    case_decide as Hd; [|done]. destruct Hd as [<- _]. simpl. apply Hold.
  - intros e Hne. unfold g'. rewrite get_edge_put_edge_ne.
    + apply Hmsg. intros i Hi. apply Hne. lia.
    + apply (Hne k). lia.
  - intros i Hi. destruct (decide (i = k)) as [->|Hik].
    + fold outeid ineid. by rewrite Hnew.
    + rewrite <-Hkeep, Hsent by lia.
      by rewrite (scratch_at_ext g g' out_edges k i Hkeep) by lia.
  - fold outeid. by rewrite Hnew.
  - rewrite reported_snoc. cbv zeta. fold outeid. rewrite Hnew.
    rewrite <-(reported_ext sh g2 g g' out_edges k Hkeep), <-Htasks.
    rewrite Hold. change (target g' outeid) with (target g outeid).
    unfold target. rewrite He.
    destruct (d_gt _ _); [done|]. by rewrite (right_id_L [] (++)).
Qed.

Lemma send_messages_sent (sh : shared_data D BF) v
    (in_edges out_edges : list nat) g2 :
  NoDup out_edges →
  (∀ e, e ∈ out_edges → (e < length (edges g2))%nat) →
  length in_edges = length out_edges →
  target g2 <$> out_edges = source g2 <$> in_edges →
  ∃ st', send_messages sh v in_edges out_edges g2 = Some st'
         ∧ sent sh v in_edges out_edges g2 (length out_edges) st'.
Proof.
  intros Hnd Hvalid Hlen Hpair. unfold send_messages. rewrite Hlen.
  destruct (for_size_opt_invariant
    (send_message sh v in_edges out_edges)
    (λ i, sent sh v in_edges out_edges g2 (Z.to_nat i))
    (Z.of_nat (length out_edges)) (g2, empty_factor, [])) as (st' & Hrun & Hst');
    [lia| | |].
  - unfold sent. simpl. split_and!; try done. intros i Hi. lia.
  - intros i st Hi Hst.
    replace (Z.to_nat (i + 1)) with (S (Z.to_nat i)) by lia.
    pose proof (send_message_sent sh v in_edges out_edges g2 (Z.to_nat i) st
                  Hnd Hvalid) as Hstep.
    rewrite Z2Nat.id in Hstep by lia. apply Hstep; [lia| |done].
    assert ((target g2 <$> out_edges) !! Z.to_nat i
            = (source g2 <$> in_edges) !! Z.to_nat i) as Hi' by (by rewrite Hpair).
    rewrite !list_lookup_fmap in Hi'.
    rewrite (list_lookup_lookup_total_lt out_edges (Z.to_nat i)) in Hi' by lia.
    rewrite (list_lookup_lookup_total_lt in_edges (Z.to_nat i)) in Hi' by lia.
    by simplify_eq/=.
  - exists st'. by rewrite Nat2Z.id in Hst'.
Qed.
End SendLoop.

(** ** One update *)

Lemma foldl_ext_all {A B : Type} (f f' : A → B → A) (l : list B) (a : A) :
  (∀ a x, f a x = f' a x) → foldl f a l = foldl f' a l.
Proof.
  intros Hext. revert a. induction l as [|x l IH]; intros a; [done|].
  simpl. by rewrite Hext, IH.
Qed.

Lemma foldl_ext_in {A B : Type} (f f' : A → B → A) (l : list B) (a : A) :
  (∀ a x, x ∈ l → f a x = f' a x) → foldl f a l = foldl f' a l.
Proof.
  revert a. induction l as [|x l IH]; intros a Hext; [done|].
  simpl. rewrite Hext by apply list_elem_of_here.
  apply IH. intros a' y Hy. by apply Hext, list_elem_of_further.
Qed.

Section UpdateRun.
Context {D BF : Type} {ops : FactorOps D BF}.
Implicit Types (g : graph D) (e : nat) (v : Z).

Lemma bp_update_unfold g v (sh : shared_data D BF) :
  length (in_edge_ids g v) = length (out_edge_ids g v) →
  bp_update g v (Some sh)
  = update_after_flip sh v (in_edge_ids g v) (out_edge_ids g v)
      (flip_messages (in_edge_ids g v) g).
Proof.
  intros Hlen. unfold bp_update, update_after_flip. simpl.
  by rewrite decide_True.
Qed.

(** The update after the flip returns, in a state of the loop invariant
    at the last out-edge. *)
Lemma update_after_flip_run (sh : shared_data D BF) v
    (in_edges out_edges : list nat) g1 :
  NoDup out_edges →
  (∀ e, e ∈ out_edges → (e < length (edges g1))%nat) →
  length in_edges = length out_edges →
  target g1 <$> out_edges = source g1 <$> in_edges →
  ∃ g' tmp tasks,
    update_after_flip sh v in_edges out_edges g1 = Some (g', tasks) ∧
    sent sh v in_edges out_edges (compute_belief v in_edges g1)
         (length out_edges) (g', tmp, tasks).
Proof.
  intros Hnd Hvalid Hlen Hpair.
  destruct (send_messages_sent sh v in_edges out_edges
              (compute_belief v in_edges g1)) as ([[g' tmp] tasks] & Hrun & Hst);
    [done..|].
  exists g', tmp, tasks. split; [|done].
  unfold update_after_flip. by rewrite Hrun.
Qed.

Lemma not_in_and_out g v e :
  (v, v) ∉ ends g → e ∈ out_edge_ids g v → e ∉ in_edge_ids g v.
Proof.
  intros Hloop [Hlt Hs]%elem_of_out_edge_ids [_ Ht]%elem_of_in_edge_ids.
  apply Hloop, list_elem_of_lookup. exists e.
  pose proof (ends_lookup_total g e Hlt) as Hl. by rewrite Hs, Ht in Hl.
Qed.

(** On the scope of a vertex the update returns; its result is described
    by the loop invariant over the store after the flip and the belief. *)
Lemma bp_update_run g v (sh : shared_data D BF) :
  scope_ok g v →
  let in_edges := in_edge_ids g v in
  let out_edges := out_edge_ids g v in
  ∃ g' tmp tasks,
    bp_update g v (Some sh) = Some (g', tasks) ∧
    sent sh v in_edges out_edges
         (compute_belief v in_edges (flip_messages in_edges g))
         (length out_edges) (g', tmp, tasks).
Proof.
  intros [Hstored Hv Hpair Hloop]. cbv zeta.
  destruct (flip_messages_spec (in_edge_ids g v) g)
    as (Hv1 & He1 & Hf1 & Hl1 & Hd1).
  assert (length (in_edge_ids g v) = length (out_edge_ids g v)) as Hlen.
  { by rewrite <-(length_fmap (source g)), <-Hpair, length_fmap. }
  rewrite bp_update_unfold by done.
  apply update_after_flip_run; [apply NoDup_out_edge_ids| |done|].
  - intros e [Hlt _]%elem_of_out_edge_ids. rewrite Hl1, Hstored. done.
  - unfold target, source. rewrite He1. exact Hpair.
Qed.
End UpdateRun.

Section UpdateFacts.
Context {D BF : Type} {ops : FactorOps D BF}.
Implicit Types (g : graph D) (e : nat) (v : Z).

Lemma reported_base_ext (sh : shared_data D BF) g0 g0' g'
    (out_edges : list nat) k :
  (∀ i, (i < k)%nat →
     old_message (get_edge g0 (out_edges !!! i))
     = old_message (get_edge g0' (out_edges !!! i)) ∧
     target g0 (out_edges !!! i) = target g0' (out_edges !!! i)) →
  reported sh g0 g' out_edges k = reported sh g0' g' out_edges k.
Proof.
  induction k as [|k IH]; intros Hext; [done|].
  rewrite !reported_snoc, IH by (intros; apply Hext; lia).
  cbv zeta. destruct (Hext k) as [-> ->]; [lia|done].
Qed.

Lemma elem_of_reported (sh : shared_data D BF) g0 g' (out_edges : list nat)
    (u : Z) (p : D) :
  (u, p) ∈ reported sh g0 g' out_edges (length out_edges) ↔
  ∃ i outeid, out_edges !! i = Some outeid ∧
    u = target g0 outeid ∧
    p = residual (message (get_edge g' outeid))
                 (old_message (get_edge g0 outeid)) ∧
    d_gt p (bound sh) = true.
Proof.
  unfold reported. rewrite list_elem_of_bind. split.
  - intros (i & Hin & Hi%elem_of_seq). exists i, (out_edges !!! i).
    split; [apply list_lookup_lookup_total_lt; lia|].
    cbv zeta in Hin. destruct (d_gt _ _) eqn:Hgt.
    + apply list_elem_of_singleton in Hin. simplify_eq. done.
    + by apply elem_of_nil in Hin.
  - intros (i & outeid & Hl & -> & -> & Hgt). exists i.
    rewrite (list_lookup_total_correct _ _ _ Hl). cbv zeta. rewrite Hgt.
    split; [apply list_elem_of_here|].
    apply elem_of_seq. apply lookup_lt_Some in Hl. lia.
Qed.

(** What one update does to the store and what it reports. *)
Lemma bp_update_facts g v (sh : shared_data D BF) :
  scope_ok g v →
  ∃ g' tasks, bp_update g v (Some sh) = Some (g', tasks) ∧
    (ends g' = ends g ∧ finalized g' = finalized g ∧
     length (edges g') = length (edges g) ∧
     length (vertices g') = length (vertices g)) ∧
    (∀ n, n ≠ Z.to_nat v → vertices g' !! n = vertices g !! n) ∧
    potential (get_vertex g' v) = potential (get_vertex g v) ∧
    belief (get_vertex g' v)
    = normalize (foldl (λ b e, times b (old_message (get_edge g' e)))
                       (potential (get_vertex g v)) (in_edge_ids g v)) ∧
    (∀ e, old_message (get_edge g' e)
          = if decide (e ∈ in_edge_ids g v) then message (get_edge g e)
            else old_message (get_edge g e)) ∧
    (∀ e, e ∉ out_edge_ids g v →
          message (get_edge g' e) = message (get_edge g e)) ∧
    (∀ i, (i < length (out_edge_ids g v))%nat →
          message (get_edge g' (out_edge_ids g v !!! i))
          = outgoing sh (belief (get_vertex g' v))
              (old_message (get_edge g' (in_edge_ids g v !!! i)))
              (message (get_edge g (out_edge_ids g v !!! i)))
              (scratch_at g' (out_edge_ids g v) i)) ∧
    tasks = reported sh g g' (out_edge_ids g v) (length (out_edge_ids g v)).
Proof.
  intros Hok. destruct (bp_update_run g v sh Hok) as (g' & tmp & tasks & Hrun & Hst).
  destruct Hok as [Hstored Hv Hpair Hloop].
  set (in_edges := in_edge_ids g v) in *.
  set (out_edges := out_edge_ids g v) in *.
  destruct (flip_messages_spec in_edges g) as (Hv1 & He1 & Hf1 & Hl1 & Hd1).
  set (g1 := flip_messages in_edges g) in *.
  destruct (compute_belief_spec v in_edges g1) as (He2 & Hd2 & Hf2 & Hl2 & Hn2 & Hb2).
  set (g2 := compute_belief v in_edges g1) in *.
  clearbody g2 g1. unfold sent in Hst. simpl in Hst.
  destruct Hst as (Hv' & He' & Hf' & Hl' & Hold & Hmsg & Hsent & _ & Htasks).
  destruct Hb2 as [Hpot Hbel]; [unfold num_vertices in *; by rewrite Hv1|].
  assert (∀ e, get_edge g2 e = get_edge g1 e) as Hg2
    by (intros e; unfold get_edge; by rewrite Hd2).
  assert (get_vertex g1 v = get_vertex g v) as Hgv1
    by (unfold get_vertex; by rewrite Hv1).
  assert (get_vertex g' v = get_vertex g2 v) as Hgv'
    by (unfold get_vertex; by rewrite Hv').
  assert (∀ e, old_message (get_edge g' e)
               = if decide (e ∈ in_edges) then message (get_edge g e)
                 else old_message (get_edge g e)) as Hold'.
  { intros e. rewrite Hold, Hg2. apply Hd1. }
  exists g', tasks. split; [done|]. split_and!.
  - by rewrite He', He2, He1.
  - by rewrite Hf', Hf2, Hf1.
  - by rewrite Hl', Hd2, Hl1.
  - by rewrite Hv', Hl2, Hv1.
  - intros n Hn. by rewrite Hv', Hn2, Hv1.
  - by rewrite Hgv', Hpot, Hgv1.
  - rewrite Hgv', Hbel, Hgv1. f_equal. apply foldl_ext_all.
    intros b e. by rewrite Hold, Hg2.
  - done.
  - intros e Hne. rewrite Hmsg, Hg2; [apply Hd1|].
    intros i Hi <-. apply Hne. by apply list_elem_of_lookup_total_2.
  - intros i Hi. rewrite Hsent by done.
    by rewrite Hgv', !Hold, !Hg2, (proj1 (Hd1 _)).
  - rewrite Htasks. apply reported_base_ext. intros i Hi. split.
    + rewrite Hg2, (proj2 (Hd1 _)). rewrite decide_False; [done|].
      apply (not_in_and_out g v); [done|].
      by apply list_elem_of_lookup_total_2.
    + unfold target. by rewrite He2, He1.
Qed.
End UpdateFacts.

(** A scope to run the update on: vertex 1 of the graph of the 2 x 2 image
    of the executable instance. *)
Lemma max_plus_scope : scope_ok (MaxPlus.graph_of MaxPlus.img22) 1.
Proof.
  split.
  - vm_compute. reflexivity.
  - vm_compute. intuition discriminate.
  - vm_compute. reflexivity.
  - apply (bool_decide_unpack _). vm_compute. exact I.
Qed.

(** ** The belief *)

(** C2.  The update sets the belief of the vertex to the normalized product
    of its potential with the old message of every in-edge, taken in the
    order of the in-edges, the old messages being the messages the edges
    held when the update started.  The loop that computes the outgoing
    messages runs on the store that holds this belief. *)
Theorem bp_update_belief {D BF : Type} {ops : FactorOps D BF}
    (g : graph D) (v : Z) (sh : shared_data D BF) :
  scope_ok g v →
  ∃ g' tasks, bp_update g v (Some sh) = Some (g', tasks) ∧
    belief (get_vertex g' v)
    = normalize (foldl (λ b ineid, times b (old_message (get_edge g' ineid)))
                       (potential (get_vertex g v)) (in_edge_ids g v)) ∧
    (∀ ineid, ineid ∈ in_edge_ids g v →
       old_message (get_edge g' ineid) = message (get_edge g ineid)) ∧
    (let g2 := compute_belief v (in_edge_ids g v)
                 (flip_messages (in_edge_ids g v) g) in
     belief (get_vertex g2 v) = belief (get_vertex g' v) ∧
     bp_update g v (Some sh)
     = ('(g', _, tasks) ← send_messages sh v (in_edge_ids g v)
                             (out_edge_ids g v) g2;
        Some (g', tasks))).
Proof.
  intros Hok.
  destruct (bp_update_run g v sh Hok) as (g'' & tmp & tasks' & Hrun' & Hst).
  destruct (bp_update_facts g v sh Hok)
    as (g' & tasks & Hrun & _ & _ & _ & Hbel & Hold & _).
  rewrite Hrun in Hrun'. injection Hrun' as <- <-.
  exists g', tasks. split_and!; [done..| |].
  - intros ineid Hin. by rewrite Hold, decide_True.
  - cbv zeta. split.
    + destruct Hst as (Hv & _). simpl in Hv. unfold get_vertex. by rewrite Hv.
    + apply bp_update_unfold.
      destruct Hok as [_ _ Hpair _].
      by rewrite <-(length_fmap (source g)), <-Hpair, length_fmap.
Qed.

Lemma bp_update_belief_witness :
  ∃ g' tasks,
    bp_update (MaxPlus.graph_of MaxPlus.img22) 1 (Some MaxPlus.shared)
    = Some (g', tasks) ∧
    belief (get_vertex g' 1)
    = normalize (foldl (λ b ineid, times b (old_message (get_edge g' ineid)))
                       (potential (get_vertex (MaxPlus.graph_of MaxPlus.img22) 1))
                       (in_edge_ids (MaxPlus.graph_of MaxPlus.img22) 1)).
Proof.
  destruct (bp_update_belief (MaxPlus.graph_of MaxPlus.img22) 1 MaxPlus.shared
              max_plus_scope) as (g' & tasks & Hrun & Hbel & _).
  exists g', tasks. split; [exact Hrun|exact Hbel].
Defined.

(** ** The outgoing messages *)

(** C1.  For the i-th in-edge and the i-th out-edge of the vertex, the
    message the update leaves on the out-edge is computed from the belief:
    the cavity is the belief divided by the old message of the in-edge,
    normalized; the candidate is the convolution of the shared edge factor
    with the cavity, normalized, and then damped with the message the
    out-edge held before the update and the shared damping.  [convolve] is
    called on the scratch message, resized to the arity of the previous
    message and given its variable. *)
Theorem bp_update_outgoing_messages {D BF : Type} {ops : FactorOps D BF}
    (g : graph D) (v : Z) (sh : shared_data D BF) :
  scope_ok g v →
  ∃ g' tasks, bp_update g v (Some sh) = Some (g', tasks) ∧
    ∀ i ineid outeid,
      in_edge_ids g v !! i = Some ineid →
      out_edge_ids g v !! i = Some outeid →
      let cavity :=
        normalize (divide (belief (get_vertex g' v))
                          (old_message (get_edge g' ineid))) in
      let previous := message (get_edge g outeid) in
      let this := set_var (resize (scratch_at g' (out_edge_ids g v) i)
                                  (arity previous)) (var previous) in
      let candidate := normalize (convolve this (edge_factor sh) cavity) in
      old_message (get_edge g' ineid) = message (get_edge g ineid) ∧
      message (get_edge g' outeid) = damp candidate previous (damping sh).
Proof.
  intros Hok.
  destruct (bp_update_facts g v sh Hok)
    as (g' & tasks & Hrun & _ & _ & _ & _ & Hold & _ & Hsent & _).
  exists g', tasks. split; [done|]. intros i ineid outeid Hi Ho. cbv zeta.
  split.
  - rewrite Hold, decide_True; [done|]. by eapply list_elem_of_lookup_2.
  - pose proof (Hsent i) as Hs.
    rewrite (list_lookup_total_correct _ _ _ Hi),
      (list_lookup_total_correct _ _ _ Ho) in Hs.
    apply Hs. by apply lookup_lt_Some in Ho.
Qed.

Lemma bp_update_outgoing_messages_witness :
  ∃ g' tasks,
    bp_update (MaxPlus.graph_of MaxPlus.img22) 1 (Some MaxPlus.shared)
    = Some (g', tasks) ∧
    message (get_edge g' 3)
    = damp (normalize
              (convolve (set_var (resize empty_factor 3) 0)
                 (edge_factor MaxPlus.shared)
                 (normalize (divide (belief (get_vertex g' 1))
                                    (old_message (get_edge g' 1))))))
           (message (get_edge (MaxPlus.graph_of MaxPlus.img22) 3))
           (damping MaxPlus.shared).
Proof.
  destruct (bp_update_outgoing_messages (MaxPlus.graph_of MaxPlus.img22) 1
              MaxPlus.shared max_plus_scope) as (g' & tasks & Hrun & Hmsg).
  exists g', tasks. split; [exact Hrun|].
  assert (in_edge_ids (MaxPlus.graph_of MaxPlus.img22) 1 !! 0%nat = Some 1%nat)
    as Hi by (vm_compute; reflexivity).
  assert (out_edge_ids (MaxPlus.graph_of MaxPlus.img22) 1 !! 0%nat = Some 3%nat)
    as Ho by (vm_compute; reflexivity).
  assert (arity (message (get_edge (MaxPlus.graph_of MaxPlus.img22) 3)) = 3)
    as Har by (vm_compute; reflexivity).
  assert (var (message (get_edge (MaxPlus.graph_of MaxPlus.img22) 3)) = 0)
    as Hvar by (vm_compute; reflexivity).
  destruct (Hmsg 0%nat 1%nat 3%nat Hi Ho) as [_ Hm]. cbv zeta in Hm.
  rewrite Har, Hvar in Hm. exact Hm.
Defined.

(** ** Residuals and tasks *)

(** The tasks of an update in terms of the messages it leaves on the
    out-edges. *)
Lemma reported_candidates {D BF : Type} {ops : FactorOps D BF}
    (sh : shared_data D BF) (g g' : graph D) (out_edges : list nat)
    (c : nat → unary_factor D) (n : nat) :
  (∀ i, (i < n)%nat → message (get_edge g' (out_edges !!! i)) = c i) →
  reported sh g g' out_edges n
  = (i ← seq 0 n;
     if d_gt (residual (c i) (old_message (get_edge g (out_edges !!! i))))
             (bound sh)
     then [(target g (out_edges !!! i),
            residual (c i) (old_message (get_edge g (out_edges !!! i))))]
     else []).
Proof.
  induction n as [|n IH]; intros Hc; [done|].
  rewrite reported_snoc, seq_S, bind_app, bind_singleton.
  rewrite IH by (intros; apply Hc; lia). cbv zeta.
  by rewrite Hc by lia.
Qed.

(** The messages an update leaves on the out-edges are the damped
    candidates computed from the store it started on. *)
Lemma bp_update_candidates {D BF : Type} {ops : FactorOps D BF}
    (g : graph D) (v : Z) (sh : shared_data D BF) :
  scope_ok g v →
  ∃ g' tasks, bp_update g v (Some sh) = Some (g', tasks) ∧
    let bel :=
      normalize (foldl (λ b ineid, times b (message (get_edge g ineid)))
                       (potential (get_vertex g v)) (in_edge_ids g v)) in
    belief (get_vertex g' v) = bel ∧
    (∀ i, (i < length (out_edge_ids g v))%nat →
       message (get_edge g' (out_edge_ids g v !!! i))
       = candidate_at sh bel g (in_edge_ids g v) (out_edge_ids g v) i) ∧
    tasks = reported sh g g' (out_edge_ids g v) (length (out_edge_ids g v)).
Proof.
  intros Hok.
  destruct (bp_update_facts g v sh Hok)
    as (g' & tasks & Hrun & _ & _ & _ & Hbel & Hold & _ & Hsent & Htasks).
  destruct Hok as [_ _ Hpair _].
  assert (length (in_edge_ids g v) = length (out_edge_ids g v)) as Hlen.
  { by rewrite <-(length_fmap (source g)), <-Hpair, length_fmap. }
  exists g', tasks. split; [done|]. cbv zeta.
  assert (belief (get_vertex g' v)
          = normalize (foldl (λ b ineid, times b (message (get_edge g ineid)))
                         (potential (get_vertex g v)) (in_edge_ids g v))) as Hbel'.
  { rewrite Hbel. f_equal. apply foldl_ext_in. intros b e Hin.
    by rewrite Hold, decide_True. }
  split_and!; [done| |done].
  assert (∀ k, (k ≤ length (out_edge_ids g v))%nat → ∀ i, (i < k)%nat →
            message (get_edge g' (out_edge_ids g v !!! i))
            = candidate_at sh (belief (get_vertex g' v)) g
                (in_edge_ids g v) (out_edge_ids g v) i) as Hcand.
  { induction k as [|k IH]; intros Hk i Hi; [lia|].
    destruct (decide (i = k)) as [->|]; [|apply IH; lia].
    rewrite Hsent by lia.
    rewrite Hold, decide_True by (apply list_elem_of_lookup_total_2; lia).
    destruct k as [|k]; [done|]. simpl. f_equal. apply IH; lia. }
  intros i Hi. rewrite <-Hbel'. by apply (Hcand (length (out_edge_ids g v))).
Qed.

(** C4.  For every out-edge of the vertex the update computes the damped
    candidate: the convolution of the shared edge factor with the
    normalized cavity (the belief divided by the message the paired
    in-edge held at entry), normalized and damped with the message the
    out-edge held at entry.  This candidate is committed as the message of
    the out-edge, and the residual is its distance to the old message the
    out-edge held at entry.  The tasks handed to the scheduler are, in the
    order of the out-edges, the target of each out-edge whose residual is
    above the bound, with the residual as priority: a vertex is reported
    with a priority exactly when it is the target of an out-edge whose
    residual is that priority and exceeds the bound. *)
Theorem bp_update_residuals {D BF : Type} {ops : FactorOps D BF}
    (g : graph D) (v : Z) (sh : shared_data D BF) :
  scope_ok g v →
  ∃ g' tasks, bp_update g v (Some sh) = Some (g', tasks) ∧
    let in_edges := in_edge_ids g v in
    let out_edges := out_edge_ids g v in
    let bel :=
      normalize (foldl (λ b ineid, times b (message (get_edge g ineid)))
                       (potential (get_vertex g v)) in_edges) in
    let candidate := candidate_at sh bel g in_edges out_edges in
    let res i := residual (candidate i)
                          (old_message (get_edge g (out_edges !!! i))) in
    (∀ i, (i < length out_edges)%nat →
       let cavity :=
         normalize (divide bel (message (get_edge g (in_edges !!! i)))) in
       let previous := message (get_edge g (out_edges !!! i)) in
       let scratch := match i with
                      | O => empty_factor
                      | Datatypes.S k => candidate k
                      end in
       let this := set_var (resize scratch (arity previous)) (var previous) in
       candidate i
       = damp (normalize (convolve this (edge_factor sh) cavity))
              previous (damping sh) ∧
       message (get_edge g' (out_edges !!! i)) = candidate i) ∧
    tasks
    = (i ← seq 0 (length out_edges);
       if d_gt (res i) (bound sh)
       then [(target g (out_edges !!! i), res i)] else []) ∧
    ∀ u p, (u, p) ∈ tasks ↔
      ∃ i, (i < length out_edges)%nat ∧
        u = target g (out_edges !!! i) ∧ p = res i ∧
        d_gt p (bound sh) = true.
Proof.
  intros Hok.
  destruct (bp_update_candidates g v sh Hok)
    as (g' & tasks & Hrun & _ & Hcand & ->).
  exists g'. eexists. split; [done|]. cbv zeta.
  rewrite (reported_candidates sh g g' (out_edge_ids g v) _ _ Hcand).
  split_and!.
  - intros i Hi. split; [by destruct i|by apply Hcand].
  - done.
  - intros u p. rewrite list_elem_of_bind. split.
    + intros (i & Hin & Hi%elem_of_seq). exists i. split; [lia|].
      destruct (d_gt _ _) eqn:Hgt; [|by apply elem_of_nil in Hin].
      apply list_elem_of_singleton in Hin. by simplify_eq.
    + intros (i & Hi & -> & -> & Hgt). exists i. rewrite Hgt.
      split; [apply list_elem_of_here|]. apply elem_of_seq. lia.
Qed.

Lemma bp_update_residuals_witness :
  ∃ g' tasks,
    bp_update (MaxPlus.graph_of MaxPlus.img22) 1 (Some MaxPlus.shared)
    = Some (g', tasks) ∧
    message (get_edge g' 3) = mk_unary 0 [-9 # 20; 0; -9 # 20]%Q ∧
    tasks = [(0, (9 # 20)%Q); (3, (9 # 20)%Q)].
Proof.
  destruct (bp_update_residuals (MaxPlus.graph_of MaxPlus.img22) 1
              MaxPlus.shared max_plus_scope)
    as (g' & tasks & Hrun & Hcand & Htasks & _).
  exists g', tasks. split_and!; [exact Hrun| |].
  - assert (out_edge_ids (MaxPlus.graph_of MaxPlus.img22) 1 !!! 0%nat = 3%nat)
      as Ho by (vm_compute; reflexivity).
    destruct (Hcand 0%nat) as [_ Hm]; [vm_compute; lia|].
    rewrite Ho in Hm. rewrite Hm. vm_compute. reflexivity.
  - rewrite Htasks. vm_compute. reflexivity.
Defined.

(** ** The frame of an update *)

(** C9.  An update leaves the topology, every other vertex and the
    potential of its vertex as they were.  It changes the current message
    of no edge other than the out-edges of the vertex, in particular of no
    in-edge.  The old messages are written by the flip only, which takes
    the snapshot of the in-edges: at the end every old message is the one
    of the store after the flip, that of an in-edge being the message the
    edge held when the update started and that of any other edge being
    unchanged. *)
Theorem bp_update_frame {D BF : Type} {ops : FactorOps D BF}
    (g : graph D) (v : Z) (sh : shared_data D BF) :
  scope_ok g v →
  ∃ g' tasks, bp_update g v (Some sh) = Some (g', tasks) ∧
    ends g' = ends g ∧ finalized g' = finalized g ∧
    length (edges g') = length (edges g) ∧
    length (vertices g') = length (vertices g) ∧
    (∀ n, n ≠ Z.to_nat v → vertices g' !! n = vertices g !! n) ∧
    potential (get_vertex g' v) = potential (get_vertex g v) ∧
    (∀ e, e ∉ out_edge_ids g v →
          message (get_edge g' e) = message (get_edge g e)) ∧
    (∀ e, e ∈ in_edge_ids g v →
          message (get_edge g' e) = message (get_edge g e)) ∧
    (∀ e, e ∉ in_edge_ids g v →
          old_message (get_edge g' e) = old_message (get_edge g e)) ∧
    (∀ e, old_message (get_edge g' e)
          = old_message (get_edge (flip_messages (in_edge_ids g v) g) e)) ∧
    (∀ e, e ∈ in_edge_ids g v →
          old_message (get_edge g' e) = message (get_edge g e)).
Proof.
  intros Hok.
  destruct (bp_update_facts g v sh Hok)
    as (g' & tasks & Hrun & (? & ? & ? & ?) & Hvs & Hpot & _ & Hold & Hmsg & _).
  destruct (flip_messages_spec (in_edge_ids g v) g) as (_ & _ & _ & _ & Hflip).
  exists g', tasks. split_and!; [done..| | | |].
  - intros e Hin. apply Hmsg. intros Hout.
    destruct Hok as [_ _ _ Hloop]. by apply (not_in_and_out g v e Hloop).
  - intros e Hnin. by rewrite Hold, decide_False.
  - intros e. by rewrite (proj2 (Hflip e)), Hold.
  - intros e Hin. by rewrite Hold, decide_True.
Qed.

Lemma bp_update_frame_witness :
  ∃ g' tasks,
    bp_update (MaxPlus.graph_of MaxPlus.img22) 1 (Some MaxPlus.shared)
    = Some (g', tasks) ∧
    ends g' = ends (MaxPlus.graph_of MaxPlus.img22) ∧
    potential (get_vertex g' 1)
    = potential (get_vertex (MaxPlus.graph_of MaxPlus.img22) 1).
Proof.
  destruct (bp_update_frame (MaxPlus.graph_of MaxPlus.img22) 1
              MaxPlus.shared max_plus_scope)
    as (g' & tasks & Hrun & He & _ & _ & _ & _ & Hpot & _).
  exists g', tasks. split_and!; [exact Hrun|exact He|exact Hpot].
Defined.

(** ** The snapshot *)

Section Snapshot.
Context {D BF : Type} {ops : FactorOps D BF}.
Implicit Types (g : graph D) (e : nat) (v : Z).

Lemma compute_belief_agree v (in_edges : list nat) ga gb :
  vertices ga = vertices gb →
  (∀ e, old_message (get_edge ga e) = old_message (get_edge gb e)) →
  vertices (compute_belief v in_edges ga)
  = vertices (compute_belief v in_edges gb).
Proof.
  intros Hv Hold. unfold compute_belief, put_vertex, get_vertex, foreach.
  simpl. rewrite Hv. do 3 f_equal. apply foldl_ext_all.
  intros b e. by rewrite Hold.
Qed.

(** After the flip the update reads no current message of an in-edge:
    run on two stores that differ in these messages only, it returns the
    same tasks and two stores that differ in these messages only. *)
Lemma update_after_flip_insensitive (sh : shared_data D BF) v
    (in_edges out_edges : list nat) ga gb :
  NoDup out_edges →
  (∀ e, e ∈ out_edges → (e < length (edges ga))%nat) →
  (∀ e, e ∈ out_edges → e ∉ in_edges) →
  length in_edges = length out_edges →
  target ga <$> out_edges = source ga <$> in_edges →
  same_but_messages in_edges ga gb →
  ∃ ga' gb' tasks,
    update_after_flip sh v in_edges out_edges ga = Some (ga', tasks) ∧
    update_after_flip sh v in_edges out_edges gb = Some (gb', tasks) ∧
    same_but_messages in_edges ga' gb'.
Proof.
  intros Hnd Hvalid Hdisj Hlen Hpair (Hv & He & Hf & Hl & Hd).
  destruct (update_after_flip_run sh v in_edges out_edges ga)
    as (ga' & tmpa & tasksa & Hruna & Hsta); [done..|].
  destruct (update_after_flip_run sh v in_edges out_edges gb)
    as (gb' & tmpb & tasksb & Hrunb & Hstb); [done| |done| |].
  { intros e He'. rewrite <-Hl. by apply Hvalid. }
  { unfold target, source. rewrite <-He. exact Hpair. }
  pose proof (compute_belief_agree v in_edges ga gb Hv (λ e, proj1 (Hd e)))
    as Hv2.
  destruct (compute_belief_spec v in_edges ga) as (He2a & Hd2a & Hf2a & _).
  destruct (compute_belief_spec v in_edges gb) as (He2b & Hd2b & Hf2b & _).
  set (ga2 := compute_belief v in_edges ga) in *.
  set (gb2 := compute_belief v in_edges gb) in *.
  clearbody ga2 gb2. unfold sent in Hsta, Hstb. simpl in Hsta, Hstb.
  destruct Hsta as (Hva & Hea & Hfa & Hla & Holda & Hmsga & Hsenta & _ & ->).
  destruct Hstb as (Hvb & Heb & Hfb & Hlb & Holdb & Hmsgb & Hsentb & _ & ->).
  assert (∀ e, get_edge ga2 e = get_edge ga e) as Hga2
    by (intros e; unfold get_edge; by rewrite Hd2a).
  assert (∀ e, get_edge gb2 e = get_edge gb e) as Hgb2
    by (intros e; unfold get_edge; by rewrite Hd2b).
  assert (∀ e, old_message (get_edge ga' e) = old_message (get_edge gb' e))
    as Hold.
  { intros e. by rewrite Holda, Holdb, Hga2, Hgb2, (proj1 (Hd e)). }
  assert (∀ k, (k ≤ length out_edges)%nat → ∀ i, (i < k)%nat →
            message (get_edge ga' (out_edges !!! i))
            = message (get_edge gb' (out_edges !!! i))) as Hsame.
  { induction k as [|k IH]; intros Hk i Hi; [lia|].
    destruct (decide (i = k)) as [->|]; [|apply IH; lia].
    rewrite Hsenta, Hsentb by lia.
    rewrite (scratch_at_ext ga' gb' out_edges k k) by (done || apply IH; lia).
    unfold get_vertex. rewrite Hv2, !Hga2, !Hgb2, (proj1 (Hd _)).
    rewrite (proj2 (Hd (out_edges !!! k))); [done|].
    apply Hdisj, list_elem_of_lookup_total_2. lia. }
  exists ga', gb', (reported sh ga2 ga' out_edges (length out_edges)).
  split_and!; [done| |].
  - rewrite Hrunb. do 2 f_equal.
    rewrite (reported_ext sh gb2 gb' ga' out_edges (length out_edges)).
    + apply reported_base_ext. intros i Hi. split.
      * by rewrite Hgb2, Hga2, (proj1 (Hd _)).
      * unfold target. by rewrite He2b, He2a, He.
    + intros i Hi. symmetry. by apply (Hsame (length out_edges)).
  - unfold same_but_messages. split_and!.
    + by rewrite Hva, Hvb.
    + by rewrite Hea, Heb, He2a, He2b.
    + by rewrite Hfa, Hfb, Hf2a, Hf2b.
    + by rewrite Hla, Hlb, Hd2a, Hd2b.
    + intros e. split; [done|]. intros Hnin.
      destruct (decide (e ∈ out_edges)) as [Hout|Hnout].
      * apply list_elem_of_lookup_total in Hout as (i & Hi & <-).
        by apply (Hsame (length out_edges)).
      * rewrite Hmsga, Hmsgb, Hga2, Hgb2.
        -- by apply (proj2 (Hd e)).
        -- intros i Hi <-. by apply Hnout, list_elem_of_lookup_total_2.
        -- intros i Hi <-. by apply Hnout, list_elem_of_lookup_total_2.
Qed.
End Snapshot.

(** C3.  The update starts with the flip: on every in-edge the current
    message is copied into the old message, and the belief and the outgoing
    messages are computed on the store so obtained.  What follows the flip
    reads the old messages of the in-edges, never their current messages:
    it returns the same tasks, belief and outgoing messages whatever the
    current messages of the in-edges are. *)
Theorem bp_update_snapshot {D BF : Type} {ops : FactorOps D BF}
    (g : graph D) (v : Z) (sh : shared_data D BF) :
  scope_ok g v →
  let in_edges := in_edge_ids g v in
  let out_edges := out_edge_ids g v in
  let g1 := flip_messages in_edges g in
  (∀ ineid, ineid ∈ in_edges →
     old_message (get_edge g1 ineid) = message (get_edge g ineid) ∧
     message (get_edge g1 ineid) = message (get_edge g ineid)) ∧
  bp_update g v (Some sh)
  = ('(g', _, tasks) ← send_messages sh v in_edges out_edges
                          (compute_belief v in_edges g1);
     Some (g', tasks)) ∧
  ∀ gb, same_but_messages in_edges g1 gb →
    ∃ g' gb' tasks,
      bp_update g v (Some sh) = Some (g', tasks) ∧
      update_after_flip sh v in_edges out_edges gb = Some (gb', tasks) ∧
      same_but_messages in_edges g' gb'.
Proof.
  intros Hok. cbv zeta.
  destruct (flip_messages_spec (in_edge_ids g v) g) as (Hv1 & He1 & Hf1 & Hl1 & Hd1).
  pose proof Hok as [Hstored Hv Hpair Hloop].
  assert (length (in_edge_ids g v) = length (out_edge_ids g v)) as Hlen.
  { by rewrite <-(length_fmap (source g)), <-Hpair, length_fmap. }
  split_and!.
  - intros ineid Hin. destruct (Hd1 ineid) as [Hm Ho].
    by rewrite Ho, Hm, decide_True.
  - by apply bp_update_unfold.
  - intros gb Hgb. rewrite bp_update_unfold by done.
    apply update_after_flip_insensitive; [apply NoDup_out_edge_ids| | |done| |done].
    + intros e [Hlt _]%elem_of_out_edge_ids. by rewrite Hl1, Hstored.
    + intros e. by apply not_in_and_out.
    + unfold target, source. by rewrite He1.
Qed.

Lemma bp_update_snapshot_witness :
  old_message (get_edge (flip_messages
      (in_edge_ids (MaxPlus.graph_of MaxPlus.img22) 1)
      (MaxPlus.graph_of MaxPlus.img22)) 6)
  = message (get_edge (MaxPlus.graph_of MaxPlus.img22) 6).
Proof.
  destruct (bp_update_snapshot (MaxPlus.graph_of MaxPlus.img22) 1
              MaxPlus.shared max_plus_scope) as (Hflip & _ & _).
  apply (Hflip 6%nat). apply (bool_decide_unpack _). vm_compute. exact I.
Defined.

(** ** Updates on the lattice graph *)

(** The in-edges and out-edges of a vertex depend on the topology only. *)
Lemma in_edge_ids_topology {D : Type} (g g' : graph D) (v : Z) :
  ends g' = ends g → finalized g' = finalized g →
  in_edge_ids g' v = in_edge_ids g v.
Proof. destruct g, g'. simpl. by intros -> ->. Qed.

Lemma out_edge_ids_topology {D : Type} (g g' : graph D) (v : Z) :
  ends g' = ends g → finalized g' = finalized g →
  out_edge_ids g' v = out_edge_ids g v.
Proof. destruct g, g'. simpl. by intros -> ->. Qed.

(** Every vertex of the constructed graph has the scope the update needs:
    the assertions of lines 325 and 365 hold on it. *)
Lemma construct_graph_scope_ok {D BF : Type} {ops : FactorOps D BF}
    (img : image D) (num_rings : Z) (sigma : D) :
  0 ≤ rows img < size_mod → 0 ≤ cols img < size_mod →
  rows img * cols img < size_mod →
  ∃ g, construct_graph img num_rings sigma empty_graph = Some g ∧
       ∀ v, 0 ≤ v < rows img * cols img → scope_ok g v.
Proof.
  intros Hr Hc Hsize.
  destruct (construct_graph_links img num_rings sigma Hr Hc Hsize)
    as (g & Hg & He & Hd & Hf & Hn).
  exists g. split; [done|]. intros v Hv. split.
  - by rewrite Hd, He, length_fmap.
  - by rewrite Hn.
  - apply finalized_paired; [done|rewrite He..].
    + by apply NoDup_lattice_links.
    + by apply lattice_links_sym.
  - rewrite He. by apply lattice_links_irrefl.
Qed.

(** An update keeps the scope of every vertex: the engine can run any
    sequence of updates on the constructed graph. *)
Lemma bp_update_scope_ok {D BF : Type} {ops : FactorOps D BF}
    (g g' : graph D) (v u : Z) (sh : shared_data D BF) (tasks : list task) :
  scope_ok g v → bp_update g v (Some sh) = Some (g', tasks) →
  scope_ok g u → scope_ok g' u.
Proof.
  intros Hok Hrun [Hstored Hu Hpair Hloop].
  destruct (bp_update_facts g v sh Hok)
    as (g'' & tasks' & Hrun' & (He & Hf & Hl & Hv) & _).
  rewrite Hrun in Hrun'. injection Hrun' as <- <-. split.
  - by rewrite Hl, He.
  - unfold num_vertices in *. by rewrite Hv.
  - rewrite (in_edge_ids_topology g g' u He Hf),
      (out_edge_ids_topology g g' u He Hf).
    unfold target, source. rewrite He. exact Hpair.
  - by rewrite He.
Qed.

(** ** Examples *)

(** The 2 x 2 lattice: eight directed edges, added cell by cell in the
    order up, down, left, right. *)
Example lattice22_ends :
  ends (MaxPlus.graph_of MaxPlus.img22)
  = [(0, 2); (0, 1); (1, 3); (1, 0); (2, 0); (2, 3); (3, 1); (3, 2)].
Proof. vm_compute. reflexivity. Qed.

(** At vertex 0 the out-edges are added towards 2 and then 1, the in-edges
    arrive from 1 and then 2: it is the order of [finalize] that pairs
    them. *)
Example lattice22_insertion_order :
  target (MaxPlus.graph_of MaxPlus.img22)
    <$> edges_from (MaxPlus.graph_of MaxPlus.img22) 0 = [2; 1] ∧
  source (MaxPlus.graph_of MaxPlus.img22)
    <$> edges_into (MaxPlus.graph_of MaxPlus.img22) 0 = [1; 2].
Proof. split; vm_compute; reflexivity. Qed.

Example lattice22_paired :
  out_edge_ids (MaxPlus.graph_of MaxPlus.img22) 0 = [1; 0]%nat ∧
  in_edge_ids (MaxPlus.graph_of MaxPlus.img22) 0 = [3; 4]%nat.
Proof. split; vm_compute; reflexivity. Qed.

(** The potentials of the 1 x 2 image with pixels 0 and 2, three colours
    and sigma = 1. *)
Example lattice12_potentials :
  potential <$> vertices (MaxPlus.graph_of MaxPlus.img12)
  = [mk_unary 0 [0; -1 # 2; -2]%Q; mk_unary 1 [-2; -1 # 2; 0]%Q].
Proof. vm_compute. reflexivity. Qed.

(** One update of vertex 0 of that graph: the belief is the potential (the
    in-message is uniform), the message to vertex 1 changes and vertex 1
    is reported with the residual. *)
Example lattice12_update :
  ∃ g', bp_update (MaxPlus.graph_of MaxPlus.img12) 0 (Some MaxPlus.shared)
        = Some (g', [(1, (27 # 20)%Q)]) ∧
        belief (get_vertex g' 0) = mk_unary 0 [0; -1 # 2; -2]%Q ∧
        message (get_edge g' 0) = mk_unary 1 [0; -9 # 20; -27 # 20]%Q ∧
        get_edge g' 1 = get_edge (MaxPlus.graph_of MaxPlus.img12) 1.
Proof. eexists. split_and!; vm_compute; reflexivity. Qed.

(** [main] with an unknown smoothing stops after the error message. *)
Example main_gaussian :
  main (BF := MaxPlus.table) true MaxPlus.gaussian_options
  = ([Say "This program creates and denoises a synthetic ";
      Say "image using loopy belief propagation inside ";
      Say "the graphlab framework.";
      SayOptions;
      Say "Creating a synethic image. "; PaintSunset 5;
      Say "Saving image. "; SaveImage "source_img.pgm";
      Say "Corrupting Image. "; Corrupt 2%Q;
      Say "Saving corrupted image. "; SaveImage "noisy_img.pgm";
      Say "Constructing pairwise Markov Random Field. ";
      ConstructGraph 5 2%Q;
      Say "Initializing shared edge agreement factor. ";
      Say "Invalid smoothing stype!"]%string, EXIT_FAILURE).
Proof. reflexivity. Qed.

(** * Further properties *)

(** ** When an update aborts *)

Lemma foldl_bind_None {A S : Type} (body : A → S → option S) (l : list A) :
  foldl (λ acc x, acc ≫= body x) None l = None.
Proof. induction l as [|x l IH]; [done|]. simpl. exact IH. Qed.

(** A loop that returns has run every iteration from a state of the
    invariant. *)
Lemma foldl_opt_returns {A S : Type} (body : A → S → option S)
    (P : nat → S → Prop) (R : nat → A → Prop) (l : list A) (s s' : S) :
  P 0%nat s →
  (∀ k x s s1, l !! k = Some x → P k s → body x s = Some s1 →
               P (Datatypes.S k) s1 ∧ R k x) →
  foldl (λ acc x, acc ≫= body x) (Some s) l = Some s' →
  ∀ k x, l !! k = Some x → R k x.
Proof.
  revert P R s. induction l as [|x l IH]; intros P R s H0 Hstep Hrun k y Hk;
    [done|].
  simpl in Hrun. destruct (body x s) as [s1|] eqn:Hb.
  - destruct (Hstep 0%nat x s s1 eq_refl H0 Hb) as [H1 HR].
    destruct k as [|k]; [by simplify_eq/=|].
    apply (IH (λ k, P (Datatypes.S k)) (λ k, R (Datatypes.S k)) s1); [done| |done..].
    intros k' x' s2 s3 Hk'. by apply (Hstep (Datatypes.S k')).
  - simpl in Hrun. by rewrite foldl_bind_None in Hrun.
Qed.

Section Abort.
Context {D BF : Type} {ops : FactorOps D BF}.
Implicit Types (g : graph D) (v : Z).

Lemma send_message_ends (sh : shared_data D BF) v (in_edges out_edges : list nat)
    i st st' :
  send_message sh v in_edges out_edges i st = Some st' →
  ends st'.1.1 = ends st.1.1 ∧
  target st.1.1 (out_edges !!! Z.to_nat i) = source st.1.1 (in_edges !!! Z.to_nat i).
Proof.
  destruct st as [[g tmp] tasks]. unfold send_message.
  case_decide as Hd; [|done]. intros Hst. by simplify_eq/=.
Qed.

(** The assertion of line 365 decides whether the loop over the paired
    edges returns: it does when every out-edge ends where the in-edge of
    the same position starts, and only then. *)
Lemma send_messages_returns (sh : shared_data D BF) v
    (in_edges out_edges : list nat) g :
  length in_edges = length out_edges →
  is_Some (send_messages sh v in_edges out_edges g) ↔
  target g <$> out_edges = source g <$> in_edges.
Proof.
  intros Hlen. split.
  - intros [st' Hrun]. unfold send_messages, for_size_opt in Hrun.
    assert (∀ k i, seqZ 0 (Z.of_nat (length in_edges)) !! k = Some i →
              target g (out_edges !!! Z.to_nat i)
              = source g (in_edges !!! Z.to_nat i)) as Hall.
    { apply (foldl_opt_returns (send_message sh v in_edges out_edges)
               (λ _ st, ends st.1.1 = ends g) _ _ (g, empty_factor, []) st');
        [done| |done].
      intros k i st st1 _ He Hst.
      destruct (send_message_ends sh v in_edges out_edges i st st1 Hst)
        as [He1 Hp].
      split; [congruence|]. unfold target, source in *. by rewrite <-He. }
    apply list_eq. intros k. rewrite !list_lookup_fmap.
    destruct (decide (k < length out_edges)%nat) as [Hk|Hk].
    + rewrite (list_lookup_lookup_total_lt out_edges k) by done.
      rewrite (list_lookup_lookup_total_lt in_edges k) by lia. simpl. f_equal.
      specialize (Hall k (Z.of_nat k)). rewrite Nat2Z.id in Hall.
      apply Hall. rewrite lookup_seqZ. lia.
    + by rewrite !lookup_ge_None_2 by lia.
  - intros Hpair.
    destruct (for_size_opt_invariant (send_message sh v in_edges out_edges)
      (λ _ st, ends st.1.1 = ends g) (Z.of_nat (length in_edges))
      (g, empty_factor, [])) as (st' & Hrun & _); [lia|done| |by exists st'].
    intros i [[g1 tmp] tasks] Hi He. simpl in He. unfold send_message.
    assert ((target g <$> out_edges) !! Z.to_nat i
            = (source g <$> in_edges) !! Z.to_nat i) as Hi' by (by rewrite Hpair).
    rewrite !list_lookup_fmap in Hi'.
    rewrite (list_lookup_lookup_total_lt out_edges (Z.to_nat i)) in Hi' by lia.
    rewrite (list_lookup_lookup_total_lt in_edges (Z.to_nat i)) in Hi' by lia.
    rewrite decide_True; [by eexists|].
    unfold target, source. rewrite He. by simplify_eq/=.
Qed.
End Abort.

(** An update that returns has passed its three assertions. *)
Lemma bp_update_passed {D BF : Type} {ops : FactorOps D BF}
    (g : graph D) (v : Z) (shared : option (shared_data D BF)) :
  is_Some (bp_update g v shared) →
  is_Some shared ∧
  length (in_edge_ids g v) = length (out_edge_ids g v) ∧
  target g <$> out_edge_ids g v = source g <$> in_edge_ids g v.
Proof.
  destruct shared as [sh|]; [|by intros [? ?]].
  unfold bp_update. simpl.
  destruct (flip_messages_spec (in_edge_ids g v) g) as (_ & He1 & _).
  destruct (compute_belief_spec v (in_edge_ids g v)
              (flip_messages (in_edge_ids g v) g)) as (He2 & _).
  set (g2 := compute_belief v (in_edge_ids g v)
               (flip_messages (in_edge_ids g v) g)) in *.
  assert (ends g2 = ends g) as He by congruence. clearbody g2.
  case_decide as Hlen; [|by intros [? ?]].
  pose proof (send_messages_returns sh v (in_edge_ids g v)
                (out_edge_ids g v) g2 Hlen) as Hsend.
  unfold target, source in *. rewrite He in Hsend. rewrite <-Hsend.
  destruct (send_messages sh v (in_edge_ids g v) (out_edge_ids g v) g2)
    as [[[g' tmp] tasks]|]; simpl.
  - intros _. split_and!; by eauto.
  - by intros [? ?].
Qed.

(** X1.  An update whose assertions do not all hold aborts, whatever the
    store holds: without the shared data (line 309), with in-edges and
    out-edges of different number (line 325), or with an out-edge that does
    not end where the in-edge of the same position starts (line 365),
    nothing is returned. *)
Theorem bp_update_aborts {D BF : Type} {ops : FactorOps D BF}
    (g : graph D) (v : Z) (shared : option (shared_data D BF)) :
  shared = None ∨
  length (in_edge_ids g v) ≠ length (out_edge_ids g v) ∨
  target g <$> out_edge_ids g v ≠ source g <$> in_edge_ids g v →
  bp_update g v shared = None.
Proof.
  intros Hfail. destruct (bp_update g v shared) as [r|] eqn:Hrun; [|done].
  destruct (bp_update_passed g v shared) as ([sh Hsh] & Hlen & Hpair);
    [by rewrite Hrun|].
  destruct Hfail as [->|[?|?]]; done.
Qed.

(** The 2 x 2 lattice before [finalize]: at vertex 0 the out-edges and the
    in-edges are in the order of insertion and are not paired. *)
Lemma bp_update_aborts_witness :
  bp_update (mk_graph (vertices (MaxPlus.graph_of MaxPlus.img22))
                      (ends (MaxPlus.graph_of MaxPlus.img22))
                      (edges (MaxPlus.graph_of MaxPlus.img22)) false)
            0 (Some MaxPlus.shared) = None.
Proof.
  apply bp_update_aborts. right. right. vm_compute. discriminate.
Defined.

(** ** The graph that construct_graph is given *)

Lemma for_size_opt_skip {S : Type} (n : Z) (body : Z → S → option S) (s : S) :
  (∀ i s, body i s = Some s) → for_size_opt n body s = Some s.
Proof.
  intros Hskip. unfold for_size_opt.
  induction (seqZ 0 n) as [|i l IH]; [done|]. simpl. by rewrite Hskip.
Qed.

Lemma for_size_skip {S : Type} (n : Z) (body : Z → S → S) (s : S) :
  (∀ i s, body i s = s) → for_size n body s = s.
Proof.
  intros Hskip. unfold for_size.
  induction (seqZ 0 n) as [|i l IH]; [done|]. simpl. by rewrite Hskip.
Qed.

(** X2.  [construct_graph] numbers the vertices itself: on a graph that
    already holds a vertex the assertion of line 429 fails at the first
    pixel of a non-empty image, and nothing is returned. *)
Theorem construct_graph_needs_empty_graph {D BF : Type} {ops : FactorOps D BF}
    (img : image D) (num_rings : Z) (sigma : D) (g : graph D) :
  0 < rows img → 0 < cols img → vertices g ≠ [] →
  construct_graph img num_rings sigma g = None.
Proof.
  intros Hr Hc Hv. unfold construct_graph, add_vertices, for_size_opt.
  rewrite (seqZ_cons 0 (rows img)) by done. simpl.
  rewrite (seqZ_cons 0 (cols img)) by done. simpl.
  unfold add_pixel_vertex at 1. simpl.
  rewrite decide_False.
  - by rewrite !foldl_bind_None.
  - unfold num_vertices, vertid. rewrite Z.mul_0_l, Z.add_0_l.
    change (wrap 0) with 0. destruct (vertices g); [done|]. simpl. lia.
Qed.

Lemma construct_graph_needs_empty_graph_witness :
  construct_graph MaxPlus.img22 3 1%Q
    (mk_graph [mk_vertex_data empty_factor empty_factor] [] [] false) = None.
Proof.
  apply construct_graph_needs_empty_graph; [reflexivity|reflexivity|discriminate].
Defined.

(** X3.  An image without pixels adds nothing: whatever the graph holds,
    [construct_graph] returns it finalized. *)
Theorem construct_graph_empty_image {D BF : Type} {ops : FactorOps D BF}
    (img : image D) (num_rings : Z) (sigma : D) (g : graph D) :
  rows img = 0 ∨ cols img = 0 →
  construct_graph img num_rings sigma g = Some (finalize g).
Proof.
  intros Hempty. unfold construct_graph, add_vertices, add_edges.
  destruct Hempty as [Hr|Hc].
  - rewrite Hr. done.
  - rewrite Hc. rewrite for_size_opt_skip by done. simpl.
    by rewrite for_size_skip.
Qed.

Lemma construct_graph_empty_image_witness :
  construct_graph (mk_image 3 0 (λ _ _, 0%Q)) 3 1%Q (MaxPlus.graph_of MaxPlus.img22)
  = Some (finalize (MaxPlus.graph_of MaxPlus.img22)).
Proof. apply construct_graph_empty_image. right. reflexivity. Defined.

(** ** The outcome of main *)

Ltac is_an_event :=
  repeat (first [by apply list_elem_of_here | apply list_elem_of_further]).

(** X4.  [main] returns [EXIT_SUCCESS] exactly when the command line parses,
    the smoothing is "square" or "laplace" and the prediction type is "map"
    or "exp"; the engine is started exactly when the first two hold. *)
Theorem main_exit_code {D BF : Type} {ops : FactorOps D BF}
    (parsed : bool) (o : options D) :
  ((main parsed o).2 = EXIT_SUCCESS ↔
   parsed = true ∧
   (opt_smoothing o = "square"%string ∨ opt_smoothing o = "laplace"%string) ∧
   (opt_pred_type o = "map"%string ∨ opt_pred_type o = "exp"%string)) ∧
  (StartEngine ∈ (main parsed o).1 ↔
   parsed = true ∧
   (opt_smoothing o = "square"%string ∨ opt_smoothing o = "laplace"%string)).
Proof.
  unfold main, select_edge_potential.
  destruct parsed; simpl.
  2: { split; (split; [|by intros [? _]]); [done|not_an_event]. }
  destruct (decide (opt_smoothing o = "square"%string)) as [Hsq|Hsq];
    [|destruct (decide (opt_smoothing o = "laplace"%string)) as [Hla|Hla]].
  - split.
    + repeat case_decide; simpl; (split; [intros ?|intros (_ & _ & [?|?])]);
        try done; split_and!; auto.
    + split; [by auto|intros _]. repeat case_decide; simpl; is_an_event.
  - split.
    + repeat case_decide; simpl; (split; [intros ?|intros (_ & _ & [?|?])]);
        try done; split_and!; auto.
    + split; [by auto|intros _]. repeat case_decide; simpl; is_an_event.
  - simpl. split.
    + split; [done|]. intros (_ & [?|?] & _); done.
    + split; [not_an_event|]. intros (_ & [?|?]); done.
Qed.

(** X5.  A prediction type other than "map" and "exp" is found out after
    inference: with a valid smoothing the engine has run, and all that
    [main] does afterwards is to print the statistics, the rendering line
    and the error with the offending type.  No image is rendered and none
    is saved after the two of the setup; the exit code is
    [EXIT_FAILURE]. *)
Theorem main_invalid_prediction_type {D BF : Type} {ops : FactorOps D BF}
    (o : options D) :
  opt_smoothing o = "square"%string ∨ opt_smoothing o = "laplace"%string →
  opt_pred_type o ≠ "map"%string → opt_pred_type o ≠ "exp"%string →
  ∃ before, main true o
    = (before ++
       [StartEngine; SayStatistics; Say "Rendering the cleaned image. ";
        Say ("Invalid prediction type! : " +:+ opt_pred_type o)]%string,
       EXIT_FAILURE) ∧
    (StartEngine ∉ before) ∧
    (RenderMap ∉ before) ∧ (RenderExp ∉ before) ∧
    (∃ b1 b2 b3,
       before = b1 ++ SaveImage (opt_orig_fn o) :: b2
                   ++ SaveImage (opt_noisy_fn o) :: b3 ∧
       ∀ fn, (SaveImage fn ∉ b1) ∧ (SaveImage fn ∉ b2) ∧ (SaveImage fn ∉ b3)) ∧
    (Say "Saving cleaned image. "%string ∉ before) ∧
    (Say "Done!"%string ∉ before).
Proof.
  intros Hsm Hmap Hexp. unfold main, select_edge_potential. simpl.
  destruct (decide (opt_smoothing o = "square"%string)) as [Hsq|Hsq];
    [|destruct (decide (opt_smoothing o = "laplace"%string)) as [Hla|Hla];
      [|by destruct Hsm]];
    rewrite !decide_False by done; simpl.
  - eexists (_ :: _ :: _ :: _ :: _ :: _ :: _ :: _ :: _ :: _ :: _ :: _ :: _
               :: _ :: _ :: _ :: _ :: _ :: _ :: _ :: []).
    split; [reflexivity|].
    split_and!; [not_an_event| not_an_event| not_an_event| |not_an_event|not_an_event].
    eexists (_ :: _ :: _ :: _ :: _ :: _ :: _ :: []), (_ :: _ :: _ :: []),
      (_ :: _ :: _ :: _ :: _ :: _ :: _ :: _ :: []).
    split; [reflexivity|]. intros fn. split_and!; not_an_event.
  - eexists (_ :: _ :: _ :: _ :: _ :: _ :: _ :: _ :: _ :: _ :: _ :: _ :: _
               :: _ :: _ :: _ :: _ :: _ :: _ :: _ :: []).
    split; [reflexivity|].
    split_and!; [not_an_event| not_an_event| not_an_event| |not_an_event|not_an_event].
    eexists (_ :: _ :: _ :: _ :: _ :: _ :: _ :: []), (_ :: _ :: _ :: []),
      (_ :: _ :: _ :: _ :: _ :: _ :: _ :: _ :: []).
    split; [reflexivity|]. intros fn. split_and!; not_an_event.
Qed.

Lemma main_invalid_prediction_type_witness :
  ∃ before,
    main (BF := MaxPlus.table) true MaxPlus.median_options
    = (before ++
       [StartEngine; SayStatistics; Say "Rendering the cleaned image. ";
        Say "Invalid prediction type! : median"]%string, EXIT_FAILURE) ∧
    (StartEngine ∉ before).
Proof.
  destruct (main_invalid_prediction_type (BF := MaxPlus.table)
              MaxPlus.median_options) as (before & Hmain & Hstart & _).
  - right. reflexivity.
  - vm_compute. discriminate.
  - vm_compute. discriminate.
  - exists before. split; [exact Hmain|exact Hstart].
Defined.

(** ** What an update reports *)

Lemma reported_length {D BF : Type} {ops : FactorOps D BF}
    (sh : shared_data D BF) (g0 g' : graph D) (out_edges : list nat) (n : nat) :
  (length (reported sh g0 g' out_edges n) ≤ n)%nat.
Proof.
  induction n as [|n IH]; [done|].
  rewrite reported_snoc, length_app. cbv zeta.
  destruct (d_gt _ _); simpl; lia.
Qed.

Lemma bp_update_tasks_linked {D BF : Type} {ops : FactorOps D BF}
    (g : graph D) (v : Z) (sh : shared_data D BF) :
  scope_ok g v →
  ∃ g' tasks, bp_update g v (Some sh) = Some (g', tasks) ∧
    (length tasks ≤ length (out_edge_ids g v))%nat ∧
    ∀ u p, (u, p) ∈ tasks →
           (v, u) ∈ ends g ∧ u ≠ v ∧ d_gt p (bound sh) = true.
Proof.
  intros Hok.
  destruct (bp_update_facts g v sh Hok)
    as (g' & tasks & Hrun & _ & _ & _ & _ & _ & _ & _ & ->).
  destruct Hok as [_ _ _ Hloop].
  exists g'. eexists. split; [done|]. split; [apply reported_length|].
  intros u p (i & outeid & Hi & -> & -> & Hgt)%elem_of_reported.
  apply list_elem_of_lookup_2, elem_of_out_edge_ids in Hi as [Hlt Hs].
  assert ((v, target g outeid) ∈ ends g) as Hin.
  { apply list_elem_of_lookup. exists outeid. rewrite <-Hs.
    by apply ends_lookup_total. }
  split_and!; [done| |done]. intros Heq. apply Hloop. by rewrite Heq in Hin.
Qed.

(** X6.  An update hands the scheduler at most one task per out-edge; every
    task is for a neighbour of the vertex, never for the vertex itself, and
    its priority is above the bound. *)
Theorem bp_update_reports_neighbours {D BF : Type} {ops : FactorOps D BF}
    (g : graph D) (v : Z) (sh : shared_data D BF) :
  scope_ok g v →
  ∃ g' tasks, bp_update g v (Some sh) = Some (g', tasks) ∧
    (length tasks ≤ length (out_edge_ids g v))%nat ∧
    ∀ u p, (u, p) ∈ tasks →
           (v, u) ∈ ends g ∧ u ≠ v ∧ d_gt p (bound sh) = true.
Proof.
  intros Hok. exact (bp_update_tasks_linked g v sh Hok).
Qed.

Lemma bp_update_reports_neighbours_witness :
  ∃ g' tasks,
    bp_update (MaxPlus.graph_of MaxPlus.img22) 1 (Some MaxPlus.shared)
    = Some (g', tasks) ∧
    (length tasks ≤ length (out_edge_ids (MaxPlus.graph_of MaxPlus.img22) 1))%nat.
Proof.
  destruct (bp_update_reports_neighbours (MaxPlus.graph_of MaxPlus.img22) 1
              MaxPlus.shared max_plus_scope) as (g' & tasks & Hrun & Hlen & _).
  exists g', tasks. split; [exact Hrun|exact Hlen].
Defined.

(** ** Two updates in a row *)

(** X7.  After an update every in-edge of the vertex is read: its old
    message is its current message.  The out-edges keep the old message
    they had, which is what the residual of the next update of the vertex
    is measured against. *)
Theorem bp_update_reads_in_edges {D BF : Type} {ops : FactorOps D BF}
    (g : graph D) (v : Z) (sh : shared_data D BF) :
  scope_ok g v →
  ∃ g' tasks, bp_update g v (Some sh) = Some (g', tasks) ∧
    (∀ e, e ∈ in_edge_ids g v →
          old_message (get_edge g' e) = message (get_edge g' e)) ∧
    (∀ e, e ∈ out_edge_ids g v →
          old_message (get_edge g' e) = old_message (get_edge g e)).
Proof.
  intros Hok.
  destruct (bp_update_facts g v sh Hok)
    as (g' & tasks & Hrun & _ & _ & _ & _ & Hold & Hmsg & _).
  destruct Hok as [_ _ _ Hloop].
  exists g', tasks. split_and!; [done| |].
  - intros e Hin. rewrite Hold, decide_True by done.
    rewrite Hmsg; [done|]. intros Hout. by apply (not_in_and_out g v e).
  - intros e Hout. rewrite Hold, decide_False; [done|].
    by apply not_in_and_out.
Qed.

Lemma bp_update_reads_in_edges_witness :
  ∃ g' tasks,
    bp_update (MaxPlus.graph_of MaxPlus.img22) 1 (Some MaxPlus.shared)
    = Some (g', tasks) ∧
    old_message (get_edge g' 6) = message (get_edge g' 6).
Proof.
  destruct (bp_update_reads_in_edges (MaxPlus.graph_of MaxPlus.img22) 1
              MaxPlus.shared max_plus_scope) as (g' & tasks & Hrun & Hin & _).
  exists g', tasks. split; [exact Hrun|].
  apply Hin. apply (bool_decide_unpack _). vm_compute. exact I.
Defined.

(** X8.  Updating a vertex again, before any neighbour has sent, changes
    neither its belief nor any old message, whatever the shared constants
    of the second update are: the belief depends on the potential and on
    the messages of the in-edges only. *)
Theorem bp_update_again {D BF : Type} {ops : FactorOps D BF}
    (g g' : graph D) (v : Z) (sh sh' : shared_data D BF) (tasks : list task) :
  scope_ok g v →
  bp_update g v (Some sh) = Some (g', tasks) →
  ∃ g'' tasks', bp_update g' v (Some sh') = Some (g'', tasks') ∧
    belief (get_vertex g'' v) = belief (get_vertex g' v) ∧
    ∀ e, old_message (get_edge g'' e) = old_message (get_edge g' e).
Proof.
  intros Hok Hrun.
  pose proof (bp_update_scope_ok g g' v v sh tasks Hok Hrun Hok) as Hok'.
  destruct (bp_update_facts g v sh Hok)
    as (g1 & tasks1 & Hrun1 & (He & Hf & _) & _ & Hpot & Hbel & Hold & Hmsg & _).
  rewrite Hrun in Hrun1. injection Hrun1 as <- <-.
  destruct (bp_update_facts g' v sh' Hok')
    as (g'' & tasks' & Hrun' & _ & _ & _ & Hbel' & Hold' & _).
  rewrite (in_edge_ids_topology g g' v He Hf) in Hbel', Hold'.
  assert (∀ e, old_message (get_edge g'' e) = old_message (get_edge g' e))
    as Hsame.
  { intros e. rewrite Hold', Hold. case_decide as Hin; [|done].
    apply Hmsg. intros Hout. destruct Hok as [_ _ _ Hloop].
    by apply (not_in_and_out g v e). }
  exists g'', tasks'. split_and!; [done| |done].
  rewrite Hbel', Hbel, Hpot. f_equal. apply foldl_ext_all.
  intros b e. by rewrite Hsame.
Qed.

Lemma bp_update_again_witness :
  ∃ g' g'' tasks tasks',
    bp_update (MaxPlus.graph_of MaxPlus.img22) 1 (Some MaxPlus.shared)
    = Some (g', tasks) ∧
    bp_update g' 1 (Some MaxPlus.shared) = Some (g'', tasks') ∧
    belief (get_vertex g'' 1) = belief (get_vertex g' 1).
Proof.
  destruct (bp_update_run (MaxPlus.graph_of MaxPlus.img22) 1 MaxPlus.shared
              max_plus_scope) as (g' & _ & tasks & Hrun & _).
  destruct (bp_update_again (MaxPlus.graph_of MaxPlus.img22) g' 1
              MaxPlus.shared MaxPlus.shared tasks max_plus_scope Hrun)
    as (g'' & tasks' & Hrun' & Hbel & _).
  exists g', g'', tasks, tasks'. split_and!; [exact Hrun|exact Hrun'|exact Hbel].
Defined.

(** X9.  What a vertex commits on its edge to a neighbour is what the next
    update of the neighbour takes as the old message of that edge, the one
    that enters its belief and the cavity of the message sent back. *)
Theorem bp_update_delivers {D BF : Type} {ops : FactorOps D BF}
    (g g1 : graph D) (v u : Z) (e : nat) (sh sh' : shared_data D BF)
    (tasks : list task) :
  scope_ok g v → scope_ok g u →
  (e < length (ends g))%nat → source g e = v → target g e = u →
  bp_update g v (Some sh) = Some (g1, tasks) →
  ∃ g2 tasks', bp_update g1 u (Some sh') = Some (g2, tasks') ∧
    e ∈ in_edge_ids g1 u ∧
    old_message (get_edge g2 e) = message (get_edge g1 e) ∧
    belief (get_vertex g2 u)
    = normalize (foldl (λ b ineid, times b (old_message (get_edge g2 ineid)))
                       (potential (get_vertex g1 u)) (in_edge_ids g1 u)).
Proof.
  intros Hokv Hoku Hlt Hs Ht Hrun.
  pose proof (bp_update_scope_ok g g1 v u sh tasks Hokv Hrun Hoku) as Hoku1.
  destruct (bp_update_facts g v sh Hokv)
    as (g1' & tasks1 & Hrun1 & (He & Hf & _) & _).
  rewrite Hrun in Hrun1. injection Hrun1 as <- <-.
  destruct (bp_update_facts g1 u sh' Hoku1)
    as (g2 & tasks' & Hrun' & _ & _ & _ & Hbel & Hold & _).
  assert (e ∈ in_edge_ids g1 u) as Hin.
  { rewrite (in_edge_ids_topology g g1 u He Hf). by apply elem_of_in_edge_ids. }
  exists g2, tasks'. split_and!; [done..| |done].
  by rewrite Hold, decide_True.
Qed.

Lemma bp_update_delivers_witness :
  ∃ g1 g2 tasks tasks',
    bp_update (MaxPlus.graph_of MaxPlus.img22) 1 (Some MaxPlus.shared)
    = Some (g1, tasks) ∧
    bp_update g1 0 (Some MaxPlus.shared) = Some (g2, tasks') ∧
    old_message (get_edge g2 3) = message (get_edge g1 3).
Proof.
  destruct (bp_update_run (MaxPlus.graph_of MaxPlus.img22) 1 MaxPlus.shared
              max_plus_scope) as (g1 & _ & tasks & Hrun & _).
  destruct (bp_update_delivers (MaxPlus.graph_of MaxPlus.img22) g1 1 0 3
              MaxPlus.shared MaxPlus.shared tasks max_plus_scope)
    as (g2 & tasks' & Hrun' & _ & Hold & _).
  - split.
    + vm_compute. reflexivity.
    + vm_compute. intuition discriminate.
    + vm_compute. reflexivity.
    + apply (bool_decide_unpack _). vm_compute. exact I.
  - vm_compute. lia.
  - vm_compute. reflexivity.
  - vm_compute. reflexivity.
  - exact Hrun.
  - exists g1, g2, tasks, tasks'. split_and!; [exact Hrun|exact Hrun'|exact Hold].
Defined.

(** ** Schedules on the lattice graph *)

Section Schedule.
Context {D BF : Type} {ops : FactorOps D BF}.
Implicit Types (g : graph D) (v : Z).

Lemma run_updates_from (sh : shared_data D BF) (n : Z) (vs : list Z) g
    (tasks0 : list task) :
  (∀ v, 0 ≤ v < n → scope_ok g v) →
  (∀ s t, (s, t) ∈ ends g → 0 ≤ t < n) →
  (∀ v, v ∈ vs → 0 ≤ v < n) →
  (∀ u p, (u, p) ∈ tasks0 → 0 ≤ u < n) →
  ∃ g' tasks,
    foldl (λ acc v,
             '(g, tasks) ← acc;
             '(g', new_tasks) ← bp_update g v (Some sh);
             Some (g', tasks ++ new_tasks))
          (Some (g, tasks0)) vs = Some (g', tasks) ∧
    ends g' = ends g ∧ finalized g' = finalized g ∧
    (∀ v, 0 ≤ v < n → scope_ok g' v) ∧
    (∀ u p, (u, p) ∈ tasks → 0 ≤ u < n).
Proof.
  revert g tasks0. induction vs as [|v vs IH]; intros g tasks0 Hok Hends Hvs Ht0.
  - by exists g, tasks0.
  - assert (0 ≤ v < n) as Hv by (apply Hvs, list_elem_of_here).
    destruct (bp_update_tasks_linked g v sh (Hok v Hv))
      as (g1 & tasks1 & Hrun & _ & Hnb).
    destruct (bp_update_facts g v sh (Hok v Hv))
      as (g1' & tasks1' & Hrun' & (He & Hf & _) & _).
    rewrite Hrun in Hrun'. injection Hrun' as <- <-.
    cbn [foldl mbind option_bind]. rewrite Hrun. cbn [mbind option_bind].
    destruct (IH g1 (tasks0 ++ tasks1)) as (g' & tasks & Hfold & He' & Hf' & Hok' & Ht').
    + intros w Hw. by apply (bp_update_scope_ok g g1 v w sh tasks1); auto.
    + intros s t. rewrite He. apply Hends.
    + intros w Hw. by apply Hvs, list_elem_of_further.
    + intros u p [Hin|Hin]%elem_of_app; [by eapply Ht0|].
      destruct (Hnb u p Hin) as [Hvu _]. by eapply Hends.
    + exists g', tasks. split_and!; [done|congruence|congruence|done..].
Qed.
End Schedule.

(** X10.  On the graph that [construct_graph] builds no update ever aborts:
    every sequence of updates of vertices of the graph runs to its end,
    keeps the topology, and hands the scheduler vertices of the graph only,
    so that updating what was reported can go on without end. *)
Theorem lattice_schedule {D BF : Type} {ops : FactorOps D BF}
    (img : image D) (num_rings : Z) (sigma : D) :
  0 ≤ rows img < size_mod → 0 ≤ cols img < size_mod →
  rows img * cols img < size_mod →
  ∃ g, construct_graph img num_rings sigma empty_graph = Some g ∧
    ∀ (sh : shared_data D BF) (vs : list Z),
      (∀ v, v ∈ vs → 0 ≤ v < num_vertices g) →
      ∃ g' tasks, run_updates sh vs g = Some (g', tasks) ∧
        ends g' = ends g ∧ finalized g' = finalized g ∧
        ∀ u p, (u, p) ∈ tasks → 0 ≤ u < num_vertices g.
Proof.
  intros Hr Hc Hsize.
  destruct (construct_graph_scope_ok img num_rings sigma Hr Hc Hsize)
    as (g & Hg & Hok).
  destruct (construct_graph_links img num_rings sigma Hr Hc Hsize)
    as (g0 & Hg0 & He & _ & _ & Hn).
  rewrite Hg in Hg0. injection Hg0 as <-.
  exists g. split; [done|]. intros sh vs Hvs. rewrite Hn in *.
  destruct (run_updates_from sh (rows img * cols img) vs g [])
    as (g' & tasks & Hrun & He' & Hf' & _ & Ht); [done| |done| |].
  - intros s t Hst. rewrite He in Hst.
    by destruct (lattice_links_range img Hr Hc Hsize s t Hst).
  - intros u p Hin. by apply elem_of_nil in Hin.
  - by exists g', tasks.
Qed.

Lemma lattice_schedule_witness :
  ∃ g, construct_graph MaxPlus.img22 3 1%Q empty_graph = Some g ∧
    ∃ g' tasks, run_updates MaxPlus.shared [0; 3; 1; 1; 2; 0] g = Some (g', tasks) ∧
      ends g' = ends g.
Proof.
  assert (0 ≤ rows MaxPlus.img22 < size_mod) as Hr by (vm_compute; intuition discriminate).
  assert (0 ≤ cols MaxPlus.img22 < size_mod) as Hc by (vm_compute; intuition discriminate).
  assert (rows MaxPlus.img22 * cols MaxPlus.img22 < size_mod) as Hs by reflexivity.
  destruct (lattice_schedule MaxPlus.img22 3 1%Q Hr Hc Hs) as (g & Hg & Hall).
  exists g. split; [exact Hg|].
  destruct (Hall MaxPlus.shared [0; 3; 1; 1; 2; 0]) as (g' & tasks & Hrun & He & _).
  - injection Hg as <-. apply Forall_forall. vm_compute.
    repeat constructor; discriminate.
  - exists g', tasks. split; [exact Hrun|exact He].
Defined.

(** ** The size of the lattice graph *)

Section Count.
Context {D : Type} (img : image D).
Hypothesis rows_size : 1 ≤ rows img < size_mod.
Hypothesis cols_size : 1 ≤ cols img < size_mod.

Lemma length_cell_links i j :
  in_bounds img i j →
  Z.of_nat (length (cell_links img i j))
  = Z.b2z (1 <=? i) + Z.b2z (i + 1 <? rows img)
    + Z.b2z (1 <=? j) + Z.b2z (j + 1 <? cols img).
Proof.
  intros Hin. rewrite cell_links_neighbours by (done || lia).
  destruct Hin as [Hi Hj].
  rewrite length_fmap. unfold neighbours.
  rewrite !filter_cons, filter_nil. unfold in_image, in_bounds. simpl.
  destruct (Z.leb_spec 1 i), (Z.ltb_spec (i + 1) (rows img)),
    (Z.leb_spec 1 j), (Z.ltb_spec (j + 1) (cols img));
    repeat case_decide; simpl; lia.
Qed.

Lemma length_row_links i m :
  0 ≤ i < rows img → 0 ≤ m → m ≤ cols img →
  Z.of_nat (length (seqZ 0 m ≫= cell_links img i))
  = m * (Z.b2z (1 <=? i) + Z.b2z (i + 1 <? rows img))
    + Z.max 0 (m - 1) + Z.min m (cols img - 1).
Proof.
  intros Hi Hm. revert m Hm. apply (natlike_ind (λ m, m ≤ cols img → _)).
  - intros _. change (seqZ 0 0) with (@nil Z). simpl. lia.
  - intros m Hm IH Hle. replace (Z.succ m) with (m + 1) by lia.
    rewrite seqZ_snoc, bind_app, bind_singleton, length_app, Nat2Z.inj_add by done.
    rewrite IH by lia. rewrite length_cell_links by (unfold in_bounds; lia).
    set (a := Z.b2z (1 <=? i) + Z.b2z (i + 1 <? rows img)).
    destruct (Z.leb_spec 1 m), (Z.ltb_spec (m + 1) (cols img)); simpl; lia.
Qed.

Lemma length_lattice_links :
  Z.of_nat (length (lattice_links img))
  = 2 * ((rows img - 1) * cols img + rows img * (cols img - 1)).
Proof.
  unfold lattice_links.
  set (row i := seqZ 0 (cols img) ≫= cell_links img i).
  assert (∀ k, 0 ≤ k → k ≤ rows img →
            Z.of_nat (length (seqZ 0 k ≫= row))
            = cols img * (Z.max 0 (k - 1) + Z.min k (rows img - 1))
              + k * (2 * (cols img - 1))) as Hrows.
  { apply (natlike_ind (λ k, k ≤ rows img → _)).
    - intros _. change (seqZ 0 0) with (@nil Z).
      replace (Z.max 0 (0 - 1) + Z.min 0 (rows img - 1)) with 0 by lia.
      simpl. lia.
    - intros k Hk IH Hle. replace (Z.succ k) with (k + 1) by lia.
      rewrite seqZ_snoc, bind_app, bind_singleton, length_app, Nat2Z.inj_add by done.
      rewrite IH by lia. unfold row.
      rewrite length_row_links by lia.
      replace (Z.max 0 (cols img - 1)) with (cols img - 1) by lia.
      replace (Z.min (cols img) (cols img - 1)) with (cols img - 1) by lia.
      assert (Z.max 0 (k + 1 - 1) + Z.min (k + 1) (rows img - 1)
              = Z.max 0 (k - 1) + Z.min k (rows img - 1)
                + (Z.b2z (1 <=? k) + Z.b2z (k + 1 <? rows img))) as ->.
      { destruct (Z.leb_spec 1 k), (Z.ltb_spec (k + 1) (rows img)); simpl; lia. }
      ring. }
  rewrite Hrows by lia.
  replace (Z.max 0 (rows img - 1)) with (rows img - 1) by lia.
  replace (Z.min (rows img) (rows img - 1)) with (rows img - 1) by lia.
  ring.
Qed.
End Count.

(** X11.  The graph of an image with [rows] x [cols] pixels has
    [rows * cols] vertices and two directed edges for each of the
    [(rows - 1) * cols + rows * (cols - 1)] links of the lattice, each with
    its edge data. *)
Theorem lattice_size {D BF : Type} {ops : FactorOps D BF}
    (img : image D) (num_rings : Z) (sigma : D) :
  1 ≤ rows img < size_mod → 1 ≤ cols img < size_mod →
  rows img * cols img < size_mod →
  ∃ g, construct_graph img num_rings sigma empty_graph = Some g ∧
    num_vertices g = rows img * cols img ∧
    Z.of_nat (length (ends g))
    = 2 * ((rows img - 1) * cols img + rows img * (cols img - 1)) ∧
    length (edges g) = length (ends g).
Proof.
  intros Hr Hc Hsize.
  destruct (construct_graph_links img num_rings sigma) as (g & Hg & He & Hd & _ & Hn);
    [lia..|].
  exists g. split_and!; [done..| |].
  - rewrite He. by apply length_lattice_links.
  - by rewrite Hd, He, length_fmap.
Qed.

Lemma lattice_size_witness :
  ∃ g, construct_graph MaxPlus.img22 3 1%Q empty_graph = Some g ∧
       num_vertices g = 4 ∧ length (ends g) = 8%nat.
Proof.
  assert (1 ≤ rows MaxPlus.img22 < size_mod) as Hr by (vm_compute; intuition discriminate).
  assert (1 ≤ cols MaxPlus.img22 < size_mod) as Hc by (vm_compute; intuition discriminate).
  assert (rows MaxPlus.img22 * cols MaxPlus.img22 < size_mod) as Hs by reflexivity.
  destruct (lattice_size MaxPlus.img22 3 1%Q Hr Hc Hs) as (g & Hg & Hn & He & _).
  exists g. split_and!; [exact Hg|exact Hn|].
  apply Nat2Z.inj. rewrite He. reflexivity.
Defined.

(** ** The variable of a vertex *)

(** X12.  The belief stored for a pixel carries the identifier of its vertex
    narrowed to 32 bits (line 417): the identifier itself when the image
    has at most 2^32 pixels. *)
Theorem lattice_vertex_variable {D BF : Type} {ops : FactorOps D BF}
    (img : image D) (num_rings : Z) (sigma : D) :
  0 ≤ rows img < size_mod → 0 ≤ cols img < size_mod →
  rows img * cols img < size_mod →
  ∃ g, construct_graph img num_rings sigma empty_graph = Some g ∧
    ∀ i j, in_bounds img i j →
      ∃ d, vertices g !! Z.to_nat (vertid img i j) = Some d ∧
        var (belief d) = vertid img i j mod uint32_mod ∧
        (rows img * cols img ≤ uint32_mod → var (belief d) = vertid img i j).
Proof.
  intros Hr Hc Hsize.
  destruct (construct_graph_run img num_rings sigma Hr Hc Hsize
    (λ _, True) (λ i j d, var (belief d) = vertid img i j mod uint32_mod))
    as (g & Hg & _ & _ & _ & _ & Hv); [done..|].
  exists g. split; [done|]. intros i j Hin.
  destruct (Hv i j Hin) as (d & Hd & Hvar). exists d. split_and!; [done..|].
  intros Hsmall. rewrite Hvar. apply Z.mod_small.
  rewrite vertid_in_bounds by done.
  assert (0 ≤ i * cols img + j < rows img * cols img)
    by (destruct Hin; nia).
  lia.
Qed.

Lemma lattice_vertex_variable_witness :
  ∃ g, construct_graph MaxPlus.img22 3 1%Q empty_graph = Some g ∧
       ∃ d, vertices g !! 3%nat = Some d ∧ var (belief d) = 3.
Proof.
  assert (0 ≤ rows MaxPlus.img22 < size_mod) as Hr by (vm_compute; intuition discriminate).
  assert (0 ≤ cols MaxPlus.img22 < size_mod) as Hc by (vm_compute; intuition discriminate).
  assert (rows MaxPlus.img22 * cols MaxPlus.img22 < size_mod) as Hs by reflexivity.
  destruct (lattice_vertex_variable MaxPlus.img22 3 1%Q Hr Hc Hs) as (g & Hg & Hv).
  exists g. split; [exact Hg|].
  destruct (Hv 1 1) as (d & Hd & _ & Hvar); [vm_compute; intuition discriminate|].
  exists d. split; [exact Hd|]. apply Hvar. vm_compute. discriminate.
Defined.

(** ** What an update reads *)

Section Locality.
Context {D BF : Type} {ops : FactorOps D BF}.
Implicit Types (g h : graph D) (e : nat) (v : Z).

Lemma scope_ok_topology g h v :
  ends h = ends g → finalized h = finalized g →
  length (edges h) = length (edges g) →
  length (vertices h) = length (vertices g) →
  scope_ok g v → scope_ok h v.
Proof.
  intros He Hf Hl Hv [Hstored Hin Hpair Hloop]. split.
  - by rewrite Hl, He.
  - unfold num_vertices in *. by rewrite Hv.
  - rewrite (in_edge_ids_topology g h v He Hf),
      (out_edge_ids_topology g h v He Hf).
    unfold target, source. by rewrite He.
  - by rewrite He.
Qed.

(** An update reads the potential of its vertex, the messages of its
    in-edges and the message and old message of its out-edges, nothing
    else. *)
Lemma bp_update_local g h v (sh : shared_data D BF) g' (tasks : list task) :
  scope_ok g v →
  ends h = ends g → finalized h = finalized g →
  length (edges h) = length (edges g) →
  length (vertices h) = length (vertices g) →
  potential (get_vertex h v) = potential (get_vertex g v) →
  (∀ e, e ∈ in_edge_ids g v → message (get_edge h e) = message (get_edge g e)) →
  (∀ e, e ∈ out_edge_ids g v →
        message (get_edge h e) = message (get_edge g e) ∧
        old_message (get_edge h e) = old_message (get_edge g e)) →
  bp_update g v (Some sh) = Some (g', tasks) →
  ∃ h', bp_update h v (Some sh) = Some (h', tasks) ∧
    belief (get_vertex h' v) = belief (get_vertex g' v) ∧
    ∀ e, e ∈ out_edge_ids g v →
         message (get_edge h' e) = message (get_edge g' e).
Proof.
  intros Hok He Hf Hl Hv Hpot Hins Houts Hrun.
  pose proof (scope_ok_topology g h v He Hf Hl Hv Hok) as Hokh.
  destruct (bp_update_facts g v sh Hok)
    as (g1 & tasks1 & Hrun1 & _ & _ & _ & Hbel & Hold & _ & Hsent & Htasks).
  rewrite Hrun in Hrun1. injection Hrun1 as <- <-.
  destruct (bp_update_facts h v sh Hokh)
    as (h' & tasksh & Hrunh & _ & _ & _ & Hbelh & Holdh & _ & Hsenth & Htasksh).
  rewrite (in_edge_ids_topology g h v He Hf) in Hbelh, Holdh, Hsenth.
  rewrite (out_edge_ids_topology g h v He Hf) in Hsenth, Htasksh.
  destruct Hok as [_ _ Hpair _].
  assert (length (in_edge_ids g v) = length (out_edge_ids g v)) as Hlen.
  { by rewrite <-(length_fmap (source g)), <-Hpair, length_fmap. }
  assert (∀ e, e ∈ in_edge_ids g v →
            old_message (get_edge h' e) = old_message (get_edge g' e)) as Holdin.
  { intros e Hin. rewrite Holdh, Hold, !decide_True by done. by apply Hins. }
  assert (belief (get_vertex h' v) = belief (get_vertex g' v)) as Hbeleq.
  { rewrite Hbelh, Hbel, Hpot. f_equal. apply foldl_ext_in.
    intros b e Hin. by rewrite Holdin. }
  assert (∀ k, (k ≤ length (out_edge_ids g v))%nat → ∀ i, (i < k)%nat →
            message (get_edge h' (out_edge_ids g v !!! i))
            = message (get_edge g' (out_edge_ids g v !!! i))) as Hsame.
  { induction k as [|k IH]; intros Hk i Hi; [lia|].
    destruct (decide (i = k)) as [->|]; [|apply IH; lia].
    rewrite Hsenth, Hsent by lia.
    rewrite (scratch_at_ext h' g' (out_edge_ids g v) k k) by (done || apply IH; lia).
    rewrite Hbeleq, Holdin by (apply list_elem_of_lookup_total_2; lia).
    by rewrite (proj1 (Houts _ (list_elem_of_lookup_total_2 _ _ Hk))). }
  exists h'. split_and!; [|done|].
  - rewrite Hrunh, Htasksh, Htasks. do 2 f_equal.
    rewrite (reported_ext sh h h' g' (out_edge_ids g v)
               (length (out_edge_ids g v))) by (by apply Hsame).
    apply reported_base_ext. intros i Hi. split.
    + by apply Houts, list_elem_of_lookup_total_2.
    + unfold target. by rewrite He.
  - intros e (i & Hi & <-)%list_elem_of_lookup_total.
    by apply (Hsame (length (out_edge_ids g v))).
Qed.
End Locality.

(** X13.  An update reads the potential of its vertex, the messages of its
    in-edges and the message and old message of its out-edges, and nothing
    else of the store: on a second store with the same topology that
    agrees with the first on these, it reports the same tasks and leaves
    the same belief and the same messages on the out-edges. *)
Theorem bp_update_read_set {D BF : Type} {ops : FactorOps D BF}
    (g h g' : graph D) (v : Z) (sh : shared_data D BF) (tasks : list task) :
  scope_ok g v →
  ends h = ends g → finalized h = finalized g →
  length (edges h) = length (edges g) →
  length (vertices h) = length (vertices g) →
  potential (get_vertex h v) = potential (get_vertex g v) →
  (∀ e, e ∈ in_edge_ids g v → message (get_edge h e) = message (get_edge g e)) →
  (∀ e, e ∈ out_edge_ids g v →
        message (get_edge h e) = message (get_edge g e) ∧
        old_message (get_edge h e) = old_message (get_edge g e)) →
  bp_update g v (Some sh) = Some (g', tasks) →
  ∃ h', bp_update h v (Some sh) = Some (h', tasks) ∧
    belief (get_vertex h' v) = belief (get_vertex g' v) ∧
    ∀ e, e ∈ out_edge_ids g v →
         message (get_edge h' e) = message (get_edge g' e).
Proof. apply bp_update_local. Qed.

Lemma bp_update_read_set_witness :
  ∃ g' h' tasks,
    bp_update (MaxPlus.graph_of MaxPlus.img22) 1 (Some MaxPlus.shared)
    = Some (g', tasks) ∧
    bp_update (put_vertex (MaxPlus.graph_of MaxPlus.img22) 0
                 (mk_vertex_data empty_factor empty_factor))
              1 (Some MaxPlus.shared)
    = Some (h', tasks) ∧
    belief (get_vertex h' 1) = belief (get_vertex g' 1).
Proof.
  destruct (bp_update_run (MaxPlus.graph_of MaxPlus.img22) 1 MaxPlus.shared
              max_plus_scope) as (g' & _ & tasks & Hrun & _).
  destruct (bp_update_read_set (MaxPlus.graph_of MaxPlus.img22)
              (put_vertex (MaxPlus.graph_of MaxPlus.img22) 0
                 (mk_vertex_data empty_factor empty_factor))
              g' 1 MaxPlus.shared tasks max_plus_scope)
    as (h' & Hrunh & Hbel & _).
  - vm_compute. reflexivity.
  - vm_compute. reflexivity.
  - vm_compute. reflexivity.
  - vm_compute. reflexivity.
  - vm_compute. reflexivity.
  - intros e _. vm_compute. reflexivity.
  - intros e _. split; vm_compute; reflexivity.
  - exact Hrun.
  - exists g', h', tasks. split_and!; [exact Hrun|exact Hrunh|exact Hbel].
Defined.

(** ** Updates of vertices that are not neighbours *)

Lemma list_eq_total {A : Type} `{!Inhabited A} (l1 l2 : list A) :
  length l1 = length l2 → (∀ i, l1 !!! i = l2 !!! i) → l1 = l2.
Proof.
  intros Hlen Heq. apply list_eq. intros i.
  destruct (decide (i < length l1)%nat) as [Hi|Hi].
  - rewrite (list_lookup_lookup_total_lt l1 i) by done.
    rewrite (list_lookup_lookup_total_lt l2 i) by lia. by rewrite Heq.
  - by rewrite !lookup_ge_None_2 by lia.
Qed.

Lemma lookup_total_of_lookup {A : Type} `{!Inhabited A} (l1 l2 : list A) i :
  l1 !! i = l2 !! i → l1 !!! i = l2 !!! i.
Proof. intros Heq. by rewrite !list_lookup_total_alt, Heq. Qed.

Lemma vertex_data_eq {D : Type} (a b : vertex_data D) :
  potential a = potential b → belief a = belief b → a = b.
Proof. destruct a, b. simpl. by intros -> ->. Qed.

Lemma edge_data_eq {D : Type} (a b : edge_data D) :
  message a = message b → old_message a = old_message b → a = b.
Proof. destruct a, b. simpl. by intros -> ->. Qed.

Lemma graph_eq {D : Type} (a b : graph D) :
  vertices a = vertices b → ends a = ends b → edges a = edges b →
  finalized a = finalized b → a = b.
Proof. destruct a, b. simpl. by intros -> -> -> ->. Qed.

Section Commute.
Context {D BF : Type} {ops : FactorOps D BF}.
Implicit Types (g : graph D) (e : nat) (v u : Z).

Lemma not_out_and_in g v u e :
  (v, u) ∉ ends g → e ∈ out_edge_ids g v → e ∉ in_edge_ids g u.
Proof.
  intros Hvu [Hlt Hs]%elem_of_out_edge_ids [_ Ht]%elem_of_in_edge_ids.
  apply Hvu, list_elem_of_lookup. exists e.
  pose proof (ends_lookup_total g e Hlt) as Hl. by rewrite Hs, Ht in Hl.
Qed.

Lemma not_out_and_out g v u e :
  u ≠ v → e ∈ out_edge_ids g v → e ∉ out_edge_ids g u.
Proof.
  intros Hne [_ Hs]%elem_of_out_edge_ids [_ Hs']%elem_of_out_edge_ids.
  congruence.
Qed.

Lemma not_in_and_in g v u e :
  u ≠ v → e ∈ in_edge_ids g v → e ∉ in_edge_ids g u.
Proof.
  intros Hne [_ Ht]%elem_of_in_edge_ids [_ Ht']%elem_of_in_edge_ids.
  congruence.
Qed.

(** After the update of [v], the update of a vertex [u] that is not a
    neighbour runs as on the store before. *)
Lemma bp_update_after_other g v u (sh : shared_data D BF) g1 g2 tv tu :
  scope_ok g v → scope_ok g u → u ≠ v →
  (v, u) ∉ ends g → (u, v) ∉ ends g →
  bp_update g v (Some sh) = Some (g1, tv) →
  bp_update g u (Some sh) = Some (g2, tu) →
  ∃ g12, bp_update g1 u (Some sh) = Some (g12, tu) ∧
    belief (get_vertex g12 u) = belief (get_vertex g2 u) ∧
    ∀ e, e ∈ out_edge_ids g u →
         message (get_edge g12 e) = message (get_edge g2 e).
Proof.
  intros Hokv Hoku Hne Hvu Huv Hrunv Hrunu.
  destruct (bp_update_facts g v sh Hokv)
    as (g1' & tv' & Hrun & (He & Hf & Hl & Hv) & Hvs & _ & _ & Hold & Hmsg & _).
  rewrite Hrunv in Hrun. injection Hrun as <- <-.
  apply (bp_update_local g g1 u sh g2 tu); try done.
  - unfold get_vertex. f_equal. apply lookup_total_of_lookup, Hvs.
    destruct Hokv as [_ ? _ _], Hoku as [_ ? _ _]. lia.
  - intros e Hin. apply Hmsg. intros Hout.
    by apply (not_out_and_in g v u e).
  - intros e Hout. split.
    + apply Hmsg. intros Hout'. by apply (not_out_and_out g v u e).
    + rewrite Hold, decide_False; [done|]. by apply (not_out_and_in g u v e).
Qed.
End Commute.

(** On the scope of two vertices that are not neighbours the two updates
    give, in either order, the same tasks and the same store. *)
Lemma bp_update_swap {D BF : Type} {ops : FactorOps D BF}
    (g : graph D) (v u : Z) (sh : shared_data D BF) :
  scope_ok g v → scope_ok g u → u ≠ v →
  (v, u) ∉ ends g → (u, v) ∉ ends g →
  ∃ g1 g2 g12 tv tu,
    bp_update g v (Some sh) = Some (g1, tv) ∧
    bp_update g1 u (Some sh) = Some (g12, tu) ∧
    bp_update g u (Some sh) = Some (g2, tu) ∧
    bp_update g2 v (Some sh) = Some (g12, tv).
Proof.
  intros Hokv Hoku Hne Hvu Huv.
  destruct (bp_update_facts g v sh Hokv)
    as (g1 & tv & Hrunv & (He1 & Hf1 & Hl1 & Hv1) & Hvs1 & Hpot1 & _ & Hold1 & Hmsg1 & _).
  destruct (bp_update_facts g u sh Hoku)
    as (g2 & tu & Hrunu & (He2 & Hf2 & Hl2 & Hv2) & Hvs2 & Hpot2 & _ & Hold2 & Hmsg2 & _).
  destruct (bp_update_after_other g v u sh g1 g2 tv tu
              Hokv Hoku Hne Hvu Huv Hrunv Hrunu)
    as (g12 & Hrun12 & Hbel12 & Hout12).
  destruct (bp_update_after_other g u v sh g2 g1 tu tv
              Hoku Hokv (not_eq_sym Hne) Huv Hvu Hrunu Hrunv)
    as (g21 & Hrun21 & Hbel21 & Hout21).
  pose proof (bp_update_scope_ok g g1 v u sh tv Hokv Hrunv Hoku) as Hoku1.
  pose proof (bp_update_scope_ok g g2 u v sh tu Hoku Hrunu Hokv) as Hokv2.
  destruct (bp_update_facts g1 u sh Hoku1)
    as (g12' & tu' & Hrun & (He12 & Hf12 & Hl12 & Hv12) & Hvs12 & Hpot12 & _ & Hold12 & Hmsg12 & _).
  rewrite Hrun12 in Hrun. injection Hrun as <- <-.
  destruct (bp_update_facts g2 v sh Hokv2)
    as (g21' & tv' & Hrun & (He21 & Hf21 & Hl21 & Hv21) & Hvs21 & Hpot21 & _ & Hold21 & Hmsg21 & _).
  rewrite Hrun21 in Hrun. injection Hrun as <- <-.
  rewrite (in_edge_ids_topology g g1 u He1 Hf1) in Hold12.
  rewrite (out_edge_ids_topology g g1 u He1 Hf1) in Hmsg12.
  rewrite (in_edge_ids_topology g g2 v He2 Hf2) in Hold21.
  rewrite (out_edge_ids_topology g g2 v He2 Hf2) in Hmsg21.
  assert (Z.to_nat u ≠ Z.to_nat v) as Hnat.
  { destruct Hokv as [_ ? _ _], Hoku as [_ ? _ _]. lia. }
  exists g1, g2, g12, tv, tu. split_and!; [done..|].
  rewrite Hrun21. do 2 f_equal. apply graph_eq.
  - apply list_eq_total; [congruence|]. intros n.
    destruct (decide (n = Z.to_nat v)) as [->|Hnv];
      [|destruct (decide (n = Z.to_nat u)) as [->|Hnu]].
    + change (get_vertex g21 v = get_vertex g12 v).
      assert (get_vertex g12 v = get_vertex g1 v) as ->.
      { apply lookup_total_of_lookup, Hvs12. by apply not_eq_sym. }
      apply vertex_data_eq; [|done].
      rewrite Hpot21, Hpot1. unfold get_vertex. f_equal.
      apply lookup_total_of_lookup, Hvs2. by apply not_eq_sym.
    + change (get_vertex g21 u = get_vertex g12 u).
      assert (get_vertex g21 u = get_vertex g2 u) as ->.
      { by apply lookup_total_of_lookup, Hvs21. }
      apply vertex_data_eq; [|done].
      rewrite Hpot12, Hpot2. unfold get_vertex. f_equal. symmetry.
      by apply lookup_total_of_lookup, Hvs1.
    + apply lookup_total_of_lookup.
      by rewrite Hvs21, Hvs2, Hvs12, Hvs1.
  - congruence.
  - apply list_eq_total; [congruence|]. intros e.
    change (get_edge g21 e = get_edge g12 e). apply edge_data_eq.
    + destruct (decide (e ∈ out_edge_ids g v)) as [Hov|Hov];
        [|destruct (decide (e ∈ out_edge_ids g u)) as [Hou|Hou]].
      * rewrite Hout21 by done. symmetry. apply Hmsg12.
        by apply (not_out_and_out g v u e).
      * rewrite Hout12 by done. by apply Hmsg21.
      * by rewrite Hmsg21, Hmsg2, Hmsg12, Hmsg1.
    + rewrite Hold21, Hold12, Hold2, Hold1.
      destruct (decide (e ∈ in_edge_ids g v)) as [Hiv|Hiv];
        [|destruct (decide (e ∈ in_edge_ids g u)) as [Hiu|Hiu]].
      * rewrite (decide_False (P := e ∈ in_edge_ids g u))
          by (by apply (not_in_and_in g v u e)).
        apply Hmsg2. intros Hou. by apply (not_out_and_in g u v e Huv Hou).
      * symmetry. apply Hmsg1. intros Hov.
        by apply (not_out_and_in g v u e Hvu Hov).
      * done.
  - congruence.
Qed.

(** ** What a schedule leaves alone *)

Section ScheduleFrame.
Context {D BF : Type} {ops : FactorOps D BF}.
Implicit Types (g : graph D) (e : nat) (v w : Z).

Lemma run_updates_aborted (sh : shared_data D BF) (vs : list Z) :
  foldl (λ acc v,
           '(g, tasks) ← acc;
           '(g', new_tasks) ← bp_update g v (Some sh);
           Some (g', tasks ++ new_tasks))
        None vs = None.
Proof. induction vs as [|v vs IH]; [done|]. exact IH. Qed.

Lemma run_updates_from_frame (sh : shared_data D BF) (n : Z) (vs : list Z) g
    (tasks0 : list task) g' tasks :
  (∀ v, 0 ≤ v < n → scope_ok g v) →
  (∀ v, v ∈ vs → 0 ≤ v < n) →
  foldl (λ acc v,
           '(g, tasks) ← acc;
           '(g', new_tasks) ← bp_update g v (Some sh);
           Some (g', tasks ++ new_tasks))
        (Some (g, tasks0)) vs = Some (g', tasks) →
  ends g' = ends g ∧
  (∀ w, potential (get_vertex g' w) = potential (get_vertex g w)) ∧
  (∀ w, 0 ≤ w → w ∉ vs → get_vertex g' w = get_vertex g w) ∧
  (∀ e, source g e ∉ vs → message (get_edge g' e) = message (get_edge g e)) ∧
  (∀ e, target g e ∉ vs →
        old_message (get_edge g' e) = old_message (get_edge g e)).
Proof.
  revert g tasks0. induction vs as [|v vs IH]; intros g tasks0 Hok Hvs Hrun.
  - simpl in Hrun. by simplify_eq.
  - assert (0 ≤ v < n) as Hv by (apply Hvs, list_elem_of_here).
    destruct (bp_update_facts g v sh (Hok v Hv))
      as (g1 & tasks1 & Hrun1 & (He & Hf & _) & Hvs1 & Hpot & _ & Hold & Hmsg & _).
    cbn [foldl mbind option_bind] in Hrun. rewrite Hrun1 in Hrun.
    cbn [mbind option_bind] in Hrun.
    destruct (IH g1 (tasks0 ++ tasks1)) as (He' & Hpot' & Hvert' & Hmsg' & Hold');
      [|by intros w Hw; apply Hvs, list_elem_of_further|done|].
    { intros w Hw. by apply (bp_update_scope_ok g g1 v w sh tasks1); auto. }
    split_and!.
    + congruence.
    + intros w. rewrite Hpot'.
      destruct (decide (Z.to_nat w = Z.to_nat v)) as [Heq|Hneq].
      * unfold get_vertex in *. by rewrite Heq.
      * unfold get_vertex. f_equal. by apply lookup_total_of_lookup, Hvs1.
    + intros w Hw Hnin. apply not_elem_of_cons in Hnin as [Hne Hnin].
      rewrite Hvert' by done. unfold get_vertex.
      apply lookup_total_of_lookup, Hvs1. lia.
    + intros e Hnin. apply not_elem_of_cons in Hnin as [Hne Hnin].
      rewrite Hmsg' by (unfold source in *; by rewrite He).
      apply Hmsg. by intros [_ ?]%elem_of_out_edge_ids.
    + intros e Hnin. apply not_elem_of_cons in Hnin as [Hne Hnin].
      rewrite Hold' by (unfold target in *; by rewrite He).
      rewrite Hold, decide_False; [done|].
      by intros [_ ?]%elem_of_in_edge_ids.
Qed.
End ScheduleFrame.

(** X15.  Along a schedule the topology and every potential stay as they
    were; a vertex that is not scheduled keeps its belief, an edge whose
    source is not scheduled keeps its message and an edge whose target is
    not scheduled keeps its old message. *)
Theorem run_updates_frame {D BF : Type} {ops : FactorOps D BF}
    (g g' : graph D) (n : Z) (sh : shared_data D BF) (vs : list Z)
    (tasks : list task) :
  (∀ v, 0 ≤ v < n → scope_ok g v) →
  (∀ v, v ∈ vs → 0 ≤ v < n) →
  run_updates sh vs g = Some (g', tasks) →
  ends g' = ends g ∧
  (∀ w, potential (get_vertex g' w) = potential (get_vertex g w)) ∧
  (∀ w, 0 ≤ w → w ∉ vs → get_vertex g' w = get_vertex g w) ∧
  (∀ e, source g e ∉ vs → message (get_edge g' e) = message (get_edge g e)) ∧
  (∀ e, target g e ∉ vs →
        old_message (get_edge g' e) = old_message (get_edge g e)).
Proof. intros Hok Hvs Hrun. by eapply run_updates_from_frame. Qed.

Lemma run_updates_frame_witness :
  ∃ g g' tasks,
    construct_graph MaxPlus.img22 3 1%Q empty_graph = Some g ∧
    run_updates MaxPlus.shared [1; 1; 0] g = Some (g', tasks) ∧
    get_vertex g' 3 = get_vertex g 3.
Proof.
  assert (0 ≤ rows MaxPlus.img22 < size_mod) as Hr by (vm_compute; intuition discriminate).
  assert (0 ≤ cols MaxPlus.img22 < size_mod) as Hc by (vm_compute; intuition discriminate).
  assert (rows MaxPlus.img22 * cols MaxPlus.img22 < size_mod) as Hs by reflexivity.
  destruct (construct_graph_scope_ok MaxPlus.img22 3 1%Q Hr Hc Hs) as (g & Hg & Hok).
  change (rows MaxPlus.img22 * cols MaxPlus.img22) with 4 in Hok.
  assert (∀ v, v ∈ [1; 1; 0] → 0 ≤ v < 4) as Hvs.
  { apply Forall_forall. repeat constructor; discriminate. }
  destruct (run_updates_from MaxPlus.shared 4 [1; 1; 0] g [] Hok)
    as (g' & tasks & Hrun & _); [|exact Hvs| |].
  - intros s t Hst.
    destruct (construct_graph_links MaxPlus.img22 3 1%Q Hr Hc Hs)
      as (g0 & Hg0 & He & _).
    rewrite Hg in Hg0. injection Hg0 as <-. rewrite He in Hst.
    exact (proj2 (lattice_links_range MaxPlus.img22 Hr Hc Hs s t Hst)).
  - intros u p Hin. by apply elem_of_nil in Hin.
  - exists g, g', tasks. split_and!; [exact Hg|exact Hrun|].
    destruct (run_updates_frame g g' 4 MaxPlus.shared [1; 1; 0] tasks Hok Hvs Hrun)
      as (_ & _ & Hvert & _).
    apply Hvert; [lia|].
    apply (bool_decide_unpack _). vm_compute. exact I.
Defined.

(** ** Updates that commute on the lattice graph *)

(** X14.  On the graph that [construct_graph] builds, at any point of a
    schedule, the updates of two vertices that are not neighbours commute:
    in either order both return, each reports the same tasks, and the
    store at the end is the same. *)
Theorem lattice_updates_commute {D BF : Type} {ops : FactorOps D BF}
    (img : image D) (num_rings : Z) (sigma : D) :
  0 ≤ rows img < size_mod → 0 ≤ cols img < size_mod →
  rows img * cols img < size_mod →
  ∃ g, construct_graph img num_rings sigma empty_graph = Some g ∧
    ∀ (sh : shared_data D BF) (vs : list Z) (gs : graph D) (ts : list task)
      (v u : Z),
      (∀ w, w ∈ vs → 0 ≤ w < num_vertices g) →
      run_updates sh vs g = Some (gs, ts) →
      0 ≤ v < num_vertices g → 0 ≤ u < num_vertices g →
      u ≠ v → (v, u) ∉ ends g →
      ∃ g1 g2 g12 tv tu,
        bp_update gs v (Some sh) = Some (g1, tv) ∧
        bp_update g1 u (Some sh) = Some (g12, tu) ∧
        bp_update gs u (Some sh) = Some (g2, tu) ∧
        bp_update g2 v (Some sh) = Some (g12, tv).
Proof.
  intros Hr Hc Hsize.
  destruct (construct_graph_scope_ok img num_rings sigma Hr Hc Hsize)
    as (g & Hg & Hok).
  destruct (construct_graph_links img num_rings sigma Hr Hc Hsize)
    as (g0 & Hg0 & He & _ & _ & Hn).
  rewrite Hg in Hg0. injection Hg0 as <-.
  exists g. split; [done|]. rewrite Hn.
  intros sh vs gs ts v u Hvs Hrun Hv Hu Hne Hvu.
  destruct (run_updates_from sh (rows img * cols img) vs g [])
    as (gs' & ts' & Hrun' & He' & _ & Hok' & _); [done| |done| |].
  - intros s t Hst. rewrite He in Hst.
    by destruct (lattice_links_range img Hr Hc Hsize s t Hst).
  - intros w p Hin. by apply elem_of_nil in Hin.
  - unfold run_updates in Hrun. rewrite Hrun in Hrun'.
    injection Hrun' as <- <-.
    apply bp_update_swap; [by apply Hok'..|done| |]; rewrite He', He.
    + by rewrite <- He.
    + intros Huv. apply Hvu. rewrite He. by apply lattice_links_sym.
Qed.

Lemma lattice_updates_commute_witness :
  ∃ g gs ts g1 g2 g12 tv tu,
    construct_graph MaxPlus.img22 3 1%Q empty_graph = Some g ∧
    run_updates MaxPlus.shared [0] g = Some (gs, ts) ∧
    bp_update gs 1 (Some MaxPlus.shared) = Some (g1, tv) ∧
    bp_update g1 2 (Some MaxPlus.shared) = Some (g12, tu) ∧
    bp_update gs 2 (Some MaxPlus.shared) = Some (g2, tu) ∧
    bp_update g2 1 (Some MaxPlus.shared) = Some (g12, tv).
Proof.
  assert (0 ≤ rows MaxPlus.img22 < size_mod) as Hr by (vm_compute; intuition discriminate).
  assert (0 ≤ cols MaxPlus.img22 < size_mod) as Hc by (vm_compute; intuition discriminate).
  assert (rows MaxPlus.img22 * cols MaxPlus.img22 < size_mod) as Hs by reflexivity.
  destruct (lattice_updates_commute MaxPlus.img22 3 1%Q Hr Hc Hs)
    as (g & Hg & Hall).
  pose proof Hg as Hg'. injection Hg' as <-.
  destruct (bp_update_run (MaxPlus.graph_of MaxPlus.img22) 0 MaxPlus.shared)
    as (gs & _ & ts & Hrun0 & _).
  { split.
    - vm_compute. reflexivity.
    - vm_compute. intuition discriminate.
    - vm_compute. reflexivity.
    - apply (bool_decide_unpack _). vm_compute. exact I. }
  assert (run_updates MaxPlus.shared [0] (MaxPlus.graph_of MaxPlus.img22)
          = Some (gs, ts)) as Hrun.
  { unfold run_updates. cbn [foldl mbind option_bind]. rewrite Hrun0. done. }
  destruct (Hall MaxPlus.shared [0] gs ts 1 2)
    as (g1 & g2 & g12 & tv & tu & H1 & H2 & H3 & H4).
  - apply Forall_forall. repeat constructor; vm_compute; discriminate.
  - exact Hrun.
  - vm_compute. intuition discriminate.
  - vm_compute. intuition discriminate.
  - discriminate.
  - apply (bool_decide_unpack _). vm_compute. exact I.
  - exists (MaxPlus.graph_of MaxPlus.img22), gs, ts, g1, g2, g12, tv, tu.
    split_and!; [exact Hg|exact Hrun|exact H1|exact H2|exact H3|exact H4].
Defined.
